(** * ATCA-DMOEA: a shallow embedding of main_code.ipynb

    The notebook is a Python driver around numpy, scikit-learn and pymoo.
    It is embedded here as follows.
    - A numpy float is an element of a real field [R] (a [realFieldType],
      or a [rcfType] where [np.sqrt] is needed).
    - A decision vector is a [seq R]; a 2-D array is a [mat]: its column
      count and the list of its rows (so that a 0-row array keeps its width,
      as numpy's does).
    - Python exceptions are the [Exn] branch of the error monad [except].
    - numpy's global random generator is an explicit state [Rng] threaded
      through every draw: [random_sample] is one U[0,1) draw and
      [permutation] is [np.random.permutation]. [np.random.choice] without
      replacement is, in numpy's RandomState, [permutation(n)[:k]].
    - Library routines that are not code of this repository
      ([np.argsort], [rbf_kernel], [np.linalg.inv], [np.linalg.eigh],
      pymoo's non-dominated sorting, the problem's [_evaluate], the
      optimizer) are section variables; the facts used about them are their
      documented contracts, stated as section hypotheses. *)

Set Warnings "-notation-overridden,-ambiguous-paths,-redundant-canonical-projection".
From HB Require Import structures.
From mathcomp Require Import boot.
From mathcomp Require Import order ssralg ssrnum ssrint rat binnums arithmetic_tactic.
From Stdlib Require Import Lia.
From Stdlib Require QArith Qcanon Pnat.
From mathcomp Require Import ring_tactic field_tactic.
From Stdlib Require Strings.String.
Import String.StringSyntax.

Set Implicit Arguments.
Unset Strict Implicit.
Unset Printing Implicit Defensive.

Import Order.Theory GRing.Theory Num.Theory.

(** ** Python exceptions and the error monad *)

(** A [ValueError] carries the numpy message that tells its cause. *)
Inductive value_msg :=
  | SampleTooLarge       (* Cannot take a larger sample than population when 'replace=False' *)
  | ZeroSizeReduction    (* zero-size array to reduction operation ... which has no identity *)
  | CouldNotBroadcastInto  (* could not broadcast input array from shape ... into shape ... *)
  | ShapeMismatch        (* shape mismatch: objects cannot be broadcast to a single shape *)
  | OperandsNotBroadcast (* operands could not be broadcast together with shapes ... *)
  | ConcatDimMismatch    (* all the input array dimensions except for the concatenation axis must match exactly *)
  | ConcatNoArrays       (* need at least one array to concatenate *)
  | MatmulCoreDim        (* matmul: Input operand 1 has a mismatch in its core dimension *)
  | MinSamplesFeatures   (* Found array with 0 sample(s) / 0 feature(s) ... while a minimum of 1 is required *)
  | NegativeDims.        (* negative dimensions are not allowed *)

Inductive exn :=
  | ValueError of value_msg
  | IndexError
  | ZeroDivisionError
  | LinAlgError.

Inductive except (A : Type) := Ok of A | Exn of exn.
Arguments Ok {A} _.
Arguments Exn {A} _.

Definition bind (A B : Type) (c : except A) (k : A -> except B) : except B :=
  match c with Ok a => k a | Exn e => Exn e end.

Notation "'let*' x ':=' c 'in' k" := (bind c (fun x => k))
  (at level 200, x name, c at level 100, k at level 200).
Notation "'let*' ' p ':=' c 'in' k" := (bind c (fun x => match x with p => k end))
  (at level 200, p pattern, c at level 100, k at level 200).

Lemma bind_Ok (A B : Type) (a : A) (k : A -> except B) : bind (Ok a) k = k a.
Proof. by []. Qed.

(** [lst[i]] on a Python list or along the first axis of an array. *)
Definition py_get (T : Type) (s : seq T) (i : nat) : except T :=
  match drop i s with x :: _ => Ok x | [::] => Exn IndexError end.

(** [[s[i] for i in idx]], and numpy fancy indexing [a[idx]]. *)
Fixpoint py_gather (T : Type) (s : seq T) (idx : seq nat) : except (seq T) :=
  match idx with
  | [::] => Ok [::]
  | i :: idx' =>
      let* x := py_get s i in let* xs := py_gather s idx' in Ok (x :: xs)
  end.

(** ** numpy's random generator *)

Section Random.
Variable Rng : Type.
(** [np.random.permutation(n)]. *)
Variable permutation : Rng -> nat -> seq nat * Rng.

(** [np.random.choice(n, size=k, replace=False)]: RandomState raises when
    [k > n] and otherwise returns [self.permutation(n)[:k]]. *)
Definition np_choice (g : Rng) (n k : nat) : except (seq nat * Rng) :=
  if n < k then Exn (ValueError SampleTooLarge)
  else let: (p, g') := permutation g n in Ok (take k p, g').

(** ** save_elite_solutions (lines 193-208)

    [problem] and [obj] are unused by the function and left out; the rows
    of [var] are its [tolist()] rows. [solutions[:] = combined] replaces the
    caller's archive in place; here the new archive is returned. *)
Variable T : Type.

Definition save_elite_solutions (var : seq T) (max_save : nat)
    (solutions : seq T) (max_per_problem : nat) (g : Rng)
    : except (seq T * Rng) :=
  let current_solutions := var in
  let* '(current_elites, g1) :=
     (if size current_solutions > max_per_problem then
        let* '(random_indices, g1) := np_choice g (size current_solutions) max_per_problem in
        let* ce := py_gather current_solutions random_indices in
        Ok (ce, g1)
      else Ok (current_solutions, g)) in
  let combined := solutions ++ current_elites in
  let* '(combined', g2) :=
     (if size combined > max_save then
        let* '(random_indices, g2) := np_choice g1 (size combined) max_save in
        let* c := py_gather combined random_indices in
        Ok (c, g2)
      else Ok (combined, g1)) in
  Ok (combined', g2).

(** A sequence of calls from an archive [saved], each with its own new
    population, recording the archive after every call. *)
Fixpoint save_elite_trace (pops : seq (seq T)) (max_save max_per_problem : nat)
    (saved : seq T) (g : Rng) : except (seq (seq T) * Rng) :=
  match pops with
  | [::] => Ok ([::], g)
  | var :: pops' =>
      let* '(saved', g1) := save_elite_solutions var max_save saved max_per_problem g in
      let* '(tr, g2) := save_elite_trace pops' max_save max_per_problem saved' g1 in
      Ok (saved' :: tr, g2)
  end.

End Random.

(** ** Indices drawn by [np.random.choice] *)

(** The indices of [iota 0 n] outside [A]. *)
Definition compl_idx (n : nat) (A : seq nat) : seq nat :=
  [seq i <- iota 0 n | i \notin A].

(** A relabelling of [0..n) that sends the index set [A] onto [B]
    (position by position) and the complement of [A] onto that of [B]. *)
Definition relabel (n : nat) (A B : seq nat) (i : nat) : nat :=
  if i \in A then nth 0 B (index i A)
  else nth 0 (compl_idx n B) (index i (compl_idx n A)).

Section Relabel.
Variables (n : nat) (A B : seq nat).
Hypotheses (uA : uniq A) (uB : uniq B) (sAB : size A = size B)
  (An : all (fun i => i < n) A) (Bn : all (fun i => i < n) B).

Lemma size_compl_idx (C : seq nat) :
  uniq C -> all (fun i => i < n) C -> size (compl_idx n C) = n - size C.
Proof.
move=> uC Cn; rewrite /compl_idx size_filter.
have Hc : count (mem C) (iota 0 n) = size C.
  rewrite -size_filter; apply/perm_size/uniq_perm.
  - by rewrite filter_uniq // iota_uniq.
  - by [].
  move=> x; rewrite mem_filter mem_iota add0n /=.
  by case xC: (x \in C) => //=; move/allP: Cn => /(_ x xC) ->.
have := count_predC (mem C) (iota 0 n).
rewrite Hc size_iota => Hn.
by rewrite -[in RHS]Hn addKn.
Qed.

Lemma relabel_lt (i : nat) : i < n -> relabel n A B i < n.
Proof.
move=> lin; rewrite /relabel; case: ifP => iA.
  by apply: (allP Bn); rewrite mem_nth // -sAB index_mem.
have iAc : i \in compl_idx n A by rewrite mem_filter iA mem_iota.
have : nth 0 (compl_idx n B) (index i (compl_idx n A)) \in compl_idx n B.
  by rewrite mem_nth // size_compl_idx // -sAB -size_compl_idx // index_mem.
by rewrite mem_filter mem_iota add0n => /andP[].
Qed.

Lemma relabelK (i : nat) : i < n -> relabel n B A (relabel n A B i) = i.
Proof.
move=> lin; rewrite {2}/relabel; case: ifP => iA.
  have jB : index i A < size B by rewrite -sAB index_mem.
  by rewrite /relabel mem_nth // index_uniq // nth_index.
have iAc : i \in compl_idx n A by rewrite mem_filter iA mem_iota.
have jBc : index i (compl_idx n A) < size (compl_idx n B).
  by rewrite size_compl_idx // -sAB -size_compl_idx // index_mem.
have := mem_nth 0 jBc; rewrite {1}/compl_idx mem_filter => /andP[yB _].
rewrite /relabel (negbTE yB) index_uniq ?nth_index //.
by rewrite /compl_idx filter_uniq // iota_uniq.
Qed.

Lemma relabel_map_set : map (relabel n A B) A = B.
Proof.
apply: (@eq_from_nth _ 0); first by rewrite size_map.
move=> j; rewrite size_map => jA.
by rewrite (nth_map 0) // /relabel mem_nth // index_uniq.
Qed.

End Relabel.

Lemma relabel_mapK (n : nat) (A B : seq nat) (s : seq nat) :
  uniq A -> uniq B -> size A = size B -> all (fun i => i < n) A ->
  all (fun i => i < n) B -> all (fun i => i < n) s ->
  map (relabel n B A) (map (relabel n A B) s) = s.
Proof.
move=> uA uB sAB An Bn sn; rewrite -map_comp -[RHS]map_id.
by apply/eq_in_map => i /(allP sn) lin /=; rewrite relabelK.
Qed.

Lemma relabel_perm_iota (n : nat) (A B : seq nat) (p : seq nat) :
  uniq A -> uniq B -> size A = size B -> all (fun i => i < n) A ->
  all (fun i => i < n) B -> perm_eq p (iota 0 n) ->
  perm_eq (map (relabel n A B) p) (iota 0 n).
Proof.
move=> uA uB sAB An Bn pp.
have pn : all (fun i => i < n) p.
  by apply/allP => i; rewrite (perm_mem pp) mem_iota.
apply: uniq_perm; last first.
- move=> x; rewrite mem_iota add0n; apply/mapP/idP.
    by case=> y /(allP pn) yn ->; apply: relabel_lt.
  move=> xn; exists (relabel n B A x); last by rewrite relabelK.
  by rewrite (perm_mem pp) mem_iota add0n relabel_lt.
- by rewrite iota_uniq.
rewrite map_inj_in_uniq ?(perm_uniq pp) ?iota_uniq //.
move=> x y /(allP pn) xn /(allP pn) yn exy.
by rewrite -(relabelK uA uB sAB An Bn xn) exy relabelK.
Qed.

Lemma perm_iota_lt (n : nat) (p : seq nat) :
  perm_eq p (iota 0 n) -> all (fun i => i < n) p.
Proof. by move=> pp; apply/allP => i; rewrite (perm_mem pp) mem_iota. Qed.

(** Drawing [p] uniformly among the permutations of [0..n) (each of them
    once in [permutations (iota 0 n)]), the index set [take k p] that
    [np.random.choice(n, k, replace=False)] keeps is uniform: any two
    index sets of size [k] are kept by as many permutations. *)
Lemma choice_index_set_uniform (n k : nat) (S1 S2 : seq nat) :
  uniq S1 -> uniq S2 -> size S1 = k -> size S2 = k ->
  all (fun i => i < n) S1 -> all (fun i => i < n) S2 ->
  count (fun p => perm_eq (take k p) S1) (permutations (iota 0 n)) =
  count (fun p => perm_eq (take k p) S2) (permutations (iota 0 n)).
Proof.
move=> u1 u2 s1 s2 n1 n2.
have s12 : size S1 = size S2 by rewrite s1 s2.
set f := relabel n S1 S2; set g := relabel n S2 S1.
set L := permutations (iota 0 n).
have fK : forall s, all (fun i => i < n) s -> map g (map f s) = s.
  by move=> s; apply: relabel_mapK.
have gK : forall s, all (fun i => i < n) s -> map f (map g s) = s.
  by move=> s; apply: relabel_mapK.
have memL : forall q, (q \in L) = perm_eq q (iota 0 n).
  by move=> q; rewrite mem_permutations.
have pL : perm_eq L (map (map f) L).
  apply: uniq_perm; first exact: permutations_uniq.
    rewrite map_inj_in_uniq ?permutations_uniq //.
    move=> p q; rewrite !memL => /perm_iota_lt pn /perm_iota_lt qn epq.
    by rewrite -(fK p pn) epq fK.
  move=> q; rewrite memL; apply/idP/mapP.
    move=> qp; exists (map g q); last by rewrite gK // perm_iota_lt.
    by rewrite memL relabel_perm_iota // eq_sym.
  by case=> p; rewrite memL => pp ->; apply: relabel_perm_iota.
rewrite [RHS](permP pL) count_map; apply: eq_in_count => p.
rewrite memL => /perm_iota_lt pn /=.
have tn : all (fun i => i < n) (take k p).
  by apply/allP => i /mem_take /(allP pn).
have eB : map f S1 = S2 by apply: relabel_map_set.
rewrite -map_take -eB.
apply/idP/idP; first exact: perm_map.
by move=> /(perm_map g); rewrite !fK.
Qed.

(** ** Indexing lemmas *)

Lemma py_get_nth (T : Type) (x0 : T) (s : seq T) (i : nat) :
  i < size s -> py_get s i = Ok (nth x0 s i).
Proof. by move=> lt; rewrite /py_get (drop_nth x0 lt). Qed.

Lemma py_gather_nth (T : Type) (x0 : T) (s : seq T) (idx : seq nat) :
  all (fun i => i < size s) idx -> py_gather s idx = Ok [seq nth x0 s i | i <- idx].
Proof.
elim: idx => [|i idx IH] //= /andP[lt /IH ->].
by rewrite (py_get_nth x0 lt).
Qed.

Lemma py_gather_size (T : Type) (s : seq T) (idx : seq nat) :
  all (fun i => i < size s) idx ->
  exists xs, py_gather s idx = Ok xs /\ size xs = size idx.
Proof.
case: s => [|x0 s]; first by case: idx => [|i idx] //= _; exists [::].
move=> H; rewrite (py_gather_nth x0 H).
by exists [seq nth x0 (x0 :: s) i | i <- idx]; rewrite size_map.
Qed.

Section SaveElite.
Variables (Rng : Type) (permutation : Rng -> nat -> seq nat * Rng) (T : Type).
(** [np.random.permutation(n)] is a permutation of [0..n). *)
Hypothesis permutation_spec : forall g n, perm_eq (permutation g n).1 (iota 0 n).

Lemma np_choice_Ok (g : Rng) (n k : nat) :
  k <= n -> np_choice permutation g n k =
            Ok (take k (permutation g n).1, (permutation g n).2).
Proof. by rewrite /np_choice leqNgt => /negbTE ->; case: (permutation g n). Qed.

Lemma np_choice_lt (g : Rng) (n k : nat) :
  all (fun i => i < n) (take k (permutation g n).1).
Proof.
apply/allP => i /mem_take; rewrite (perm_mem (permutation_spec g n)).
by rewrite mem_iota.
Qed.

(** The closed form of one call: the new population is capped by the first
    draw, then the union is cut down by the second draw. *)
Lemma save_elite_solutions_eq (x0 : T) (var : seq T) (max_save : nat)
    (solutions : seq T) (max_per_problem : nat) (g : Rng) :
  let ce :=
    if size var > max_per_problem then
      ([seq nth x0 var i | i <- take max_per_problem (permutation g (size var)).1],
       (permutation g (size var)).2)
    else (var, g) in
  let combined := solutions ++ ce.1 in
  save_elite_solutions permutation var max_save solutions max_per_problem g =
  if size combined > max_save then
    Ok ([seq nth x0 combined i | i <- take max_save (permutation ce.2 (size combined)).1],
        (permutation ce.2 (size combined)).2)
  else Ok (combined, ce.2).
Proof.
rewrite /save_elite_solutions.
case Hv: (max_per_problem < size var) => /=.
  rewrite np_choice_Ok ?(ltnW Hv) //= (py_gather_nth x0 (np_choice_lt _ _ _)) /=.
  case: ifP => Hc //.
  by rewrite np_choice_Ok ?(ltnW Hc) //= (py_gather_nth x0 (np_choice_lt _ _ _)).
case: ifP => Hc //.
by rewrite np_choice_Ok ?(ltnW Hc) //= (py_gather_nth x0 (np_choice_lt _ _ _)).
Qed.

Lemma save_elite_solutions_bounded (var : seq T) (max_save : nat)
    (solutions : seq T) (max_per_problem : nat) (g : Rng) :
  exists res g',
    save_elite_solutions permutation var max_save solutions max_per_problem g = Ok (res, g')
    /\ size res <= max_save.
Proof.
case: var => [|x0 var'].
  rewrite /save_elite_solutions /= cats0; case: ifP => Hc; last first.
    by exists solutions, g; split=> //; rewrite leqNgt Hc.
  case: solutions Hc => [|y0 sol] Hc //.
  rewrite np_choice_Ok ?(ltnW Hc) //= (py_gather_nth y0 (np_choice_lt _ _ _)) /=.
  eexists; eexists; split; first by [].
  by rewrite size_map size_take; case: ifP => // /negbT; rewrite -leqNgt.
have := save_elite_solutions_eq x0 (x0 :: var') max_save solutions max_per_problem g.
case: ifP => _ ->; case: ifP => Hc.
- eexists; eexists; split; first by [].
  by rewrite size_map size_take; case: ifP => // /negbT; rewrite -leqNgt.
- by eexists; eexists; split; first by []; rewrite leqNgt Hc.
- eexists; eexists; split; first by [].
  by rewrite size_map size_take; case: ifP => // /negbT; rewrite -leqNgt.
- by eexists; eexists; split; first by []; rewrite leqNgt Hc.
Qed.

Lemma save_elite_trace_bounded (pops : seq (seq T)) (max_save max_per_problem : nat)
    (saved : seq T) (g : Rng) :
  exists tr g',
    save_elite_trace permutation pops max_save max_per_problem saved g = Ok (tr, g')
    /\ size tr = size pops /\ all (fun a => size a <= max_save) tr.
Proof.
elim: pops saved g => [|var pops IH] saved g /=; first by exists [::], g.
have [res [g1 [-> Hs]]] := save_elite_solutions_bounded var max_save saved max_per_problem g.
have [tr [g2 [Htr [Hsz Hall]]]] := IH res g1.
by exists (res :: tr), g2; rewrite /= Htr /= Hsz Hs.
Qed.

End SaveElite.

(** ** Numeric arrays *)

Fixpoint foldM (A B : Type) (f : A -> B -> except A) (a : A) (l : seq B) : except A :=
  match l with
  | [::] => Ok a
  | b :: l' => let* a' := f a b in foldM f a' l'
  end.

Fixpoint mapM (A B : Type) (f : A -> except B) (l : seq A) : except (seq B) :=
  match l with
  | [::] => Ok [::]
  | a :: l' => let* b := f a in let* bs := mapM f l' in Ok (b :: bs)
  end.

Section Numeric.
Variable R : realFieldType.
Local Open Scope ring_scope.

(** A float that may be [np.inf] ([Inf true]) or [-np.inf] ([Inf false]). *)
Inductive fext := Fin of R | Inf of bool.

(** [d + x] for a finite [x]: infinities absorb it. *)
Definition fext_add (d : fext) (x : R) : fext :=
  match d with Fin a => Fin (a + x) | Inf b => Inf b end.

Definition fext_opp (d : fext) : fext :=
  match d with Fin a => Fin (- a) | Inf b => Inf (~~ b) end.

(** The order [np.argsort] uses on floats with infinities. *)
Definition fext_le (x y : fext) : bool :=
  match x, y with
  | Inf false, _ => true
  | _, Inf true => true
  | Fin a, Fin b => a <= b
  | _, _ => false
  end.

(** [np.argsort(v)]: the indices of [v] in an order that sorts it. *)
Variable argsort : forall T : Type, rel T -> seq T -> seq nat.

(** A 2-D array: its number of columns and its rows. *)
Record mat := Mat { ncols : nat; rows : seq (seq R) }.

(** [F[:, m]] and [F[i, m]]. *)
Definition column (F : mat) (m : nat) : seq R := [seq nth 0 r m | r <- rows F].
Definition entry (F : mat) (i m : nat) : R := nth 0 (nth [::] (rows F) i) m.

(** ** crowding_distance (lines 21-38)

    [distance] is the numpy vector of floats, read and written with [nth]
    and [set_nth]: every index written comes from [np.argsort] and is in
    range, so the only [IndexError] the function can raise is
    [sorted_indices[0]] on a front without points, which is kept. *)
Definition crowding_inner (F : mat) (m : nat) (sorted_indices : seq nat)
    (f_min f_max : R) (distance : seq fext) (i : nat) : seq fext :=
  if f_max - f_min == 0 then distance
  else
    let k := nth 0 sorted_indices i in
    set_nth (Fin 0) distance k
      (fext_add (nth (Fin 0) distance k)
         ((entry F (nth 0 sorted_indices i.+1) m -
           entry F (nth 0 sorted_indices i.-1) m) / (f_max - f_min))).

Definition crowding_dim (F : mat) (distance : seq fext) (m : nat) : except (seq fext) :=
  let n_points := size (rows F) in
  let sorted_indices := argsort <=%R (column F m) in
  let* first := py_get sorted_indices 0 in
  let last_i := last first sorted_indices in
  let f_min := entry F first m in
  let f_max := entry F last_i m in
  let distance := set_nth (Fin 0) (set_nth (Fin 0) distance first (Inf true))
                    last_i (Inf true) in
  Ok (foldl (crowding_inner F m sorted_indices f_min f_max) distance
            (iota 1 (n_points - 2))).

Definition crowding_distance (F : mat) : except (seq fext) :=
  foldM (crowding_dim F) (nseq (size (rows F)) (Fin 0)) (iota 0 (ncols F)).

(** A numpy array of floats: 1-D or 2-D. *)
Inductive ndarray := Arr1 of seq R | Arr2 of mat.

End Numeric.

(** ** Facts about crowding_distance *)

Section CrowdingFacts.
Variable R : realFieldType.
Variable argsort : forall T : Type, rel T -> seq T -> seq nat.
(** The contract of [np.argsort]: a permutation of the indices of its
    argument that lists it in nondecreasing order. *)
Hypothesis argsort_perm :
  forall (T : Type) (le : rel T) (s : seq T), perm_eq (argsort le s) (iota 0 (size s)).
Hypothesis argsort_sorted :
  forall (T : Type) (le : rel T) (x0 : T) (s : seq T),
    total le -> sorted (fun i j => le (nth x0 s i) (nth x0 s j)) (argsort le s).

Lemma fext_add_add (d : fext R) (a b : R) : fext_add (fext_add d a) b = fext_add d (a + b)%R.
Proof. by case: d => [x|s] //=; rewrite addrA. Qed.

Lemma fext_add0 (d : fext R) : fext_add d 0%R = d.
Proof. by case: d => [x|s] //=; rewrite addr0. Qed.

Lemma foldl_update_nth (d : seq (fext R)) (L : seq nat) (idx : nat -> nat)
    (c : nat -> R) (j : nat) :
  all (fun i => idx i < size d) L ->
  let f := fun d i =>
    set_nth (Fin 0%R) d (idx i) (fext_add (nth (Fin 0%R) d (idx i)) (c i)) in
  size (foldl f d L) = size d /\
  nth (Fin 0%R) (foldl f d L) j =
    fext_add (nth (Fin 0%R) d j) (\sum_(i <- L | idx i == j) c i)%R.
Proof.
elim: L d => [|i L IH] d /=; first by rewrite big_nil fext_add0.
move=> /andP[lt HL].
set d' := set_nth _ d (idx i) _.
have sd' : size d' = size d by rewrite size_set_nth; apply/maxn_idPr.
have HL' : all (fun i => idx i < size d') L by rewrite sd'.
have [-> ->] := IH d' HL'.
split=> //; rewrite big_cons nth_set_nth /= [j == idx i]eq_sym.
case: eqP => [->|_]; first by rewrite fext_add_add.
by [].
Qed.

Lemma mem_iota_inner (n i : nat) :
  (i \in iota 1 (n - 2)) = (0 < i) && (i < n.-1).
Proof.
rewrite mem_iota; apply/andP/andP => [[/ssrnat.leP h1 /ssrnat.ltP h2]|[/ssrnat.ltP h1 /ssrnat.ltP h2]];
  split; apply/ssrnat.leP; rewrite -?plusE -?minusE in h1 h2 *; lia.
Qed.

Lemma foldl_keep (A B : Type) (a : A) (L : seq B) : foldl (fun a _ => a) a L = a.
Proof. by elim: L. Qed.

Lemma argsort_lt (T : Type) (le : rel T) (s : seq T) (i : nat) :
  i < size s -> nth 0 (argsort le s) i < size s.
Proof.
move=> lt; have pp := argsort_perm le s.
have : nth 0 (argsort le s) i \in argsort le s by rewrite mem_nth // (perm_size pp) size_iota.
by rewrite (perm_mem pp) mem_iota.
Qed.

Lemma mem_argsort (T : Type) (le : rel T) (s : seq T) (j : nat) :
  (j \in argsort le s) = (j < size s).
Proof. by rewrite (perm_mem (argsort_perm le s)) mem_iota. Qed.

(** The sort order of column [m], its first and last values, and the
    contribution of dimension [m] to an interior point [j]. *)
Definition crowd_order (F : mat R) (m : nat) : seq nat := argsort <=%R (column F m).
Definition crowd_min (F : mat R) (m : nat) : R := entry F (head 0 (crowd_order F m)) m.
Definition crowd_max (F : mat R) (m : nat) : R := entry F (last 0 (crowd_order F m)) m.
Definition crowd_extreme (F : mat R) (m j : nat) : bool :=
  (j == head 0 (crowd_order F m)) || (j == last 0 (crowd_order F m)).
Definition crowd_contrib (F : mat R) (m j : nat) : R :=
  let si := crowd_order F m in
  let p := index j si in
  (if crowd_max F m - crowd_min F m == 0 then 0
   else (entry F (nth 0 si p.+1) m - entry F (nth 0 si p.-1) m) /
        (crowd_max F m - crowd_min F m))%R.

Lemma size_column (F : mat R) (m : nat) : size (column F m) = size (rows F).
Proof. exact: size_map. Qed.

Lemma size_crowd_order (F : mat R) (m : nat) : size (crowd_order F m) = size (rows F).
Proof. by rewrite (perm_size (argsort_perm _ _)) size_iota size_map. Qed.

Lemma crowding_dim_spec (F : mat R) (d : seq (fext R)) (m : nat) :
  0 < size (rows F) -> size d = size (rows F) ->
  exists d', crowding_dim argsort F d m = Ok d' /\ size d' = size (rows F) /\
    forall j, j < size (rows F) ->
      nth (Fin 0%R) d' j = if crowd_extreme F m j then Inf R true
                         else fext_add (nth (Fin 0%R) d j) (crowd_contrib F m j).
Proof.
set n := size (rows F) => n0 sd.
have ssi := size_crowd_order F m; rewrite -/n in ssi.
have usi : uniq (crowd_order F m).
  by rewrite (perm_uniq (argsort_perm _ _)) iota_uniq.
rewrite /crowding_dim -/(crowd_order F m).
case Esi: (crowd_order F m) ssi usi => [|f0 si'] ssi usi; first by move: n0; rewrite -ssi.
rewrite /py_get drop0 /=.
set si := f0 :: si'.
have lt_si : forall i, i < n -> nth 0 si i < n.
  move=> i lt; rewrite /si -Esi /crowd_order.
  by have := @argsort_lt _ <=%R (column F m) i; rewrite size_column; apply.
have f0n : f0 < n by have := lt_si 0 n0.
have ln : last f0 si' < n by rewrite (last_nth 0) lt_si //= -ssi.
set d1 := set_nth _ (set_nth _ d f0 _) (last f0 si') _.
have sd1 : size d1 = n.
  by rewrite !size_set_nth (maxn_idPr _) ?sd // (maxn_idPr _) // size_set_nth (maxn_idPr _) ?sd.
have nd1 : forall j, nth (Fin 0%R) d1 j =
    if (j == f0) || (j == last f0 si') then Inf R true else nth (Fin 0%R) d j.
  move=> j; rewrite nth_set_nth /= nth_set_nth /=.
  by case: (j == last f0 si'); case: (j == f0); rewrite ?orbT.
have ext : forall j, crowd_extreme F m j = (j == f0) || (j == last f0 si').
  by move=> j; rewrite /crowd_extreme Esi.
set range := (entry F (last f0 si') m - entry F f0 m)%R.
have Erange : (crowd_max F m - crowd_min F m)%R = range by rewrite /crowd_max /crowd_min Esi.
case Hr: (range == 0%R).
  exists d1; split; first by rewrite /crowding_inner Hr foldl_keep.
  split=> // j jn; rewrite nd1 ext /crowd_contrib Erange Hr.
  by case: ifP => _ //; rewrite fext_add0.
set c := fun i => ((entry F (nth 0 si i.+1) m - entry F (nth 0 si i.-1) m) / range)%R.
have Einner : crowding_inner F m si (entry F f0 m) (entry F (last f0 si') m) =
  fun d i => set_nth (Fin 0%R) d (nth 0 si i)
               (fext_add (nth (Fin 0%R) d (nth 0 si i)) (c i)).
  by rewrite /crowding_inner Hr.
rewrite Einner.
have Hall : all (fun i => nth 0 si i < size d1) (iota 1 (n - 2)).
  apply/allP => i; rewrite mem_iota_inner sd1 => /andP[_ lt]; apply: lt_si.
  by apply: (leq_trans lt); rewrite leq_pred.
eexists; split; first by reflexivity.
have H := fun j => foldl_update_nth c j Hall.
split; first by case: (H 0) => /= -> _.
move=> j jn; case: (H j) => /= _ ->.
rewrite nd1 ext; case: ifP => // /norP[jf0 jl].
rewrite /crowd_contrib Erange Hr Esi -/si.
set p := index j si.
have jsi : j \in si by rewrite /si -Esi /crowd_order mem_argsort size_column.
have pn : p < n by rewrite -ssi index_mem.
have p0 : 0 < p.
  by rewrite lt0n; apply/eqP => p0; move: jf0; rewrite -(nth_index 0 jsi) -/p p0 eqxx.
have pl : p < n.-1.
  rewrite ltn_neqAle -ltnS (ltn_predK pn) pn andbT.
  apply/eqP => pl; move: jl; rewrite -(nth_index 0 jsi) -/p pl.
  by rewrite (last_nth 0) /= -ssi eqxx.
have Ef : [seq i <- iota 1 (n - 2) | nth 0 si i == j] = [:: p].
  have pin : p \in iota 1 (n - 2) by rewrite mem_iota_inner p0 pl.
  rewrite -(filter_pred1_uniq (iota_uniq 1 (n - 2)) pin).
  apply: eq_in_filter => i; rewrite mem_iota_inner => /andP[_ lt] /=.
  have ilt : i < size si by rewrite ssi (leq_trans lt) // leq_pred.
  apply/eqP/eqP => [Hi|->]; last exact: nth_index.
  by rewrite /p -Hi index_uniq.
by rewrite -big_filter Ef big_seq1.
Qed.

Lemma nth_column (F : mat R) (m j : nat) :
  j < size (rows F) -> nth 0%R (column F m) j = entry F j m.
Proof. by move=> lt; rewrite /column (nth_map [::]). Qed.

Lemma crowd_order_sorted (F : mat R) (m : nat) :
  sorted (fun i j => entry F i m <= entry F j m)%R (crowd_order F m).
Proof.
have := @argsort_sorted _ <=%R 0%R (column F m) (@le_total _ R).
have E : {in [pred i | i < size (rows F)] &,
    (fun i j => nth 0 (column F m) i <= nth 0 (column F m) j)%R =2
    (fun i j => entry F i m <= entry F j m)%R}.
  by move=> i j ilt jlt; rewrite /= !nth_column.
rewrite (eq_in_sorted E) //; apply/allP => i.
by rewrite mem_argsort size_column.
Qed.

(** [f_min] and [f_max] are the least and the greatest value of the column. *)
Lemma crowd_min_max (F : mat R) (m j : nat) :
  j < size (rows F) -> (crowd_min F m <= entry F j m <= crowd_max F m)%R.
Proof.
move=> jn; set si := crowd_order F m.
have ssi : size si = size (rows F) by exact: size_crowd_order.
have jsi : j \in si by rewrite mem_argsort size_column.
have p_lt : index j si < size si by rewrite index_mem.
have s0 : 0 < size si by rewrite ssi (leq_ltn_trans _ jn).
have hom := sorted_leq_nth (fun i k l => @le_trans _ R (entry F i m) (entry F k m) (entry F l m))
              (fun i => lexx (entry F i m)) 0 (crowd_order_sorted F m).
rewrite /crowd_min /crowd_max -/si -nth0 -nth_last.
have Ej := nth_index 0 jsi.
have sp : (size si).-1 < size si by rewrite prednK.
apply/andP; split; rewrite -Ej; apply: hom => //.
by rewrite -ltnS prednK.
Qed.

Lemma crowding_fold_spec (F : mat R) (L : seq nat) (d : seq (fext R)) :
  0 < size (rows F) -> size d = size (rows F) ->
  exists d', foldM (crowding_dim argsort F) d L = Ok d' /\
    size d' = size (rows F) /\
    forall j, j < size (rows F) ->
      nth (Fin 0%R) d' j =
        if has (fun m => crowd_extreme F m j) L then Inf R true
        else fext_add (nth (Fin 0%R) d j) (\sum_(m <- L) crowd_contrib F m j)%R.
Proof.
move=> n0; elim: L d => [|m L IH] d sd /=.
  exists d; split=> //; split=> // j _.
  by rewrite big_nil fext_add0.
have [d1 [-> [sd1 nd1]]] := crowding_dim_spec m n0 sd.
have [d' [Ed' [sd' nd']]] := IH d1 sd1.
exists d'; split=> //; split=> // j jn.
rewrite nd' // (nd1 j jn) big_cons.
case: (crowd_extreme F m j) => /=; first by case: has.
by rewrite fext_add_add.
Qed.

(** The whole of [crowding_distance] on a front with at least one point. *)
Lemma crowding_distance_spec (F : mat R) :
  0 < size (rows F) ->
  exists d, crowding_distance argsort F = Ok d /\ size d = size (rows F) /\
    forall j, j < size (rows F) ->
      nth (Fin 0%R) d j =
        if has (fun m => crowd_extreme F m j) (iota 0 (ncols F)) then Inf R true
        else Fin (\sum_(m <- iota 0 (ncols F)) crowd_contrib F m j)%R.
Proof.
move=> n0; have [d [Ed [sd nd]]] := @crowding_fold_spec F (iota 0 (ncols F)) _ n0 (size_nseq _ (Fin 0%R)).
exists d; split=> //; split=> // j jn.
by rewrite nd // nth_nseq jn /= add0r.
Qed.

(** When the values of column [m] are pairwise distinct, the sort order is
    the unique sorted permutation of the indices. *)
Lemma crowd_order_eq (F : mat R) (m : nat) (o : seq nat) :
  (forall i j, i < size (rows F) -> j < size (rows F) ->
     entry F i m = entry F j m -> i = j) ->
  perm_eq o (iota 0 (size (rows F))) ->
  sorted (fun i j => entry F i m <= entry F j m)%R o ->
  crowd_order F m = o.
Proof.
move=> inj po so.
have pco : perm_eq (crowd_order F m) o.
  by rewrite (perm_trans (argsort_perm _ _)) // perm_sym size_column.
apply: (sorted_eq_in _ _ (crowd_order_sorted F m) so pco).
- by move=> a b c _ _ _; apply: le_trans.
- move=> a b; rewrite !mem_argsort !size_column => an bn /andP[ab ba].
  by apply: inj => //; apply/le_anti/andP.
Qed.

(** The three-point front of objective columns [0; 1; 5] and [5; 1; 0]. *)
Definition front3 : mat R := Mat 2 [:: [:: 0; 5]; [:: 1; 1]; [:: 5; 0]]%R.

Lemma front3_inj (m : nat) : m < 2 ->
  forall i j, i < size (rows front3) -> j < size (rows front3) ->
    entry front3 i m = entry front3 j m -> i = j.
Proof.
case: m => [|[|//]] _ [|[|[|//]]] [|[|[|//]]] _ _ //; rewrite /entry /= => h; exfalso; lra.
Qed.

Lemma front3_order0 : crowd_order front3 0 = [:: 0; 1; 2].
Proof.
apply: crowd_order_eq; first exact: front3_inj.
- by [].
- by rewrite /= /entry /= !andbT; apply/andP; split; lra.
Qed.

Lemma front3_order1 : crowd_order front3 1 = [:: 2; 1; 0].
Proof.
apply: crowd_order_eq; first exact: front3_inj.
- by [].
- by rewrite /= /entry /= !andbT; apply/andP; split; lra.
Qed.

Lemma crowding_distance_front3 :
  crowding_distance argsort front3 = Ok [:: Inf R true; Fin 2%R; Inf R true].
Proof.
have [d [-> [sd nd]]] := @crowding_distance_spec front3 isT.
congr Ok; apply: (@eq_from_nth _ (Fin 0%R)); first by rewrite sd.
move=> j; rewrite sd => jn; rewrite nd //.
move: jn; case: j => [|[|[|//]]] _;
  rewrite /= /crowd_extreme front3_order0 front3_order1 //=.
rewrite big_cons big_cons big_nil /crowd_contrib /crowd_min /crowd_max.
rewrite front3_order0 front3_order1 /= /entry /=; clear nd sd.
case: eqP => h1; first by exfalso; lra.
rewrite subr0 divff ?pnatr_eq0 // addr0.
congr Fin; lra.
Qed.

End CrowdingFacts.

(** An [np.argsort] that meets the contract: a stable sort of the indices
    by the values they point to. *)
Definition argsort_by_sort (T : Type) (le : rel T) (s : seq T) : seq nat :=
  match s with
  | [::] => [::]
  | x0 :: _ => sort (fun i j => le (nth x0 s i) (nth x0 s j)) (iota 0 (size s))
  end.

Lemma argsort_by_sort_perm (T : Type) (le : rel T) (s : seq T) :
  perm_eq (argsort_by_sort le s) (iota 0 (size s)).
Proof. by case: s => [|x s] //=; rewrite perm_sort. Qed.

Lemma argsort_by_sort_sorted (T : Type) (le : rel T) (x0 : T) (s : seq T) :
  total le -> sorted (fun i j => le (nth x0 s i) (nth x0 s j)) (argsort_by_sort le s).
Proof.
case: s => [|y s] //= tot.
have := @sort_sorted _ (fun i j => le (nth y (y :: s) i) (nth y (y :: s) j))
          (fun i j => tot _ _) (iota 0 (size s).+1).
have E : {in [pred i | i < (size s).+1] &,
    (fun i j => le (nth y (y :: s) i) (nth y (y :: s) j)) =2
    (fun i j => le (nth x0 (y :: s) i) (nth x0 (y :: s) j))}.
  by move=> i j; rewrite !inE => ilt jlt; rewrite /= !(set_nth_default x0 y) .
rewrite (eq_in_sorted E) //; apply/allP => i.
by rewrite mem_sort mem_iota.
Qed.

(** ** compute_ms (lines 63-79)

    Over a real closed field, for [np.sqrt]. [np.min(A, axis=0)] raises
    [ValueError] on an array without rows; [np.sum(ms_components) / 0] on
    an array without columns is numpy's [nan] (a warning, not an
    exception), the [None] result. *)
Section Metrics.
Variable R : rcfType.
Local Open Scope ring_scope.

Definition np_min_axis0 (A : mat R) : except (seq R) :=
  match rows A with
  | [::] => Exn (ValueError ZeroSizeReduction)
  | r :: rs =>
      Ok [seq foldl Num.min (nth 0 r k) [seq nth 0 r' k | r' <- rs] | k <- iota 0 (ncols A)]
  end.

Definition np_max_axis0 (A : mat R) : except (seq R) :=
  match rows A with
  | [::] => Exn (ValueError ZeroSizeReduction)
  | r :: rs =>
      Ok [seq foldl Num.max (nth 0 r k) [seq nth 0 r' k | r' <- rs] | k <- iota 0 (ncols A)]
  end.

(** The float literal [1e-6]. *)
Definition ms_eps : R := 1 / 10%:R ^+ 6.

Definition compute_ms (F true_pf : mat R) : except (option R) :=
  let* F_min := np_min_axis0 F in
  let* F_max := np_max_axis0 F in
  let* true_min := np_min_axis0 true_pf in
  let* true_max := np_max_axis0 true_pf in
  let* ms_components :=
    mapM (fun k =>
      let* tmax := py_get true_max k in
      let* fmax := py_get F_max k in
      let* tmin := py_get true_min k in
      let* fmin := py_get F_min k in
      let numerator := Num.min tmax fmax - Num.max tmin fmin in
      let denominator := tmax - tmin in
      Ok (if `|denominator| < ms_eps then 0 else (numerator / denominator) ^+ 2))
      (iota 0 (ncols F)) in
  if ncols F == 0 then Ok None
  else Ok (Some (Num.sqrt ((\sum_(c <- ms_components) c) / (ncols F)%:R))).

Lemma foldl_min_le (x : R) (s : seq R) : foldl Num.min x s <= x.
Proof.
elim: s x => [|y s IH] x /=; first exact: lexx.
by apply: (le_trans (IH _)); rewrite ge_min lexx.
Qed.

Lemma foldl_max_ge (x : R) (s : seq R) : x <= foldl Num.max x s.
Proof.
elim: s x => [|y s IH] x /=; first exact: lexx.
by apply: (le_trans _ (IH _)); rewrite le_max lexx.
Qed.

(** [np.min(A, axis=0) <= np.max(A, axis=0)] componentwise. *)
Lemma np_min_le_max (A : mat R) (mn mx : seq R) (k : nat) :
  np_min_axis0 A = Ok mn -> np_max_axis0 A = Ok mx -> (k < ncols A)%N ->
  nth 0 mn k <= nth 0 mx k.
Proof.
rewrite /np_min_axis0 /np_max_axis0; case: (rows A) => [|r rs] //= [<-] [<-] kn.
rewrite !(nth_map 0) ?size_iota // nth_iota //.
exact: le_trans (foldl_min_le _ _) (foldl_max_ge _ _).
Qed.

(** One objective whose achieved range lies wholly above the true one:
    the overlap [min(true_max, F_max) - max(true_min, F_min)] is the
    negative gap [true_max - F_min], squared, and [MS] is the gap measured
    in units of the true range. *)
Lemma compute_ms_one_disjoint (F true_pf : mat R) (fmin fmax tmin tmax : R) :
  ncols F = 1%N ->
  np_min_axis0 F = Ok [:: fmin] -> np_max_axis0 F = Ok [:: fmax] ->
  np_min_axis0 true_pf = Ok [:: tmin] -> np_max_axis0 true_pf = Ok [:: tmax] ->
  tmax < fmin -> ms_eps <= tmax - tmin ->
  compute_ms F true_pf = Ok (Some ((fmin - tmax) / (tmax - tmin))).
Proof.
move=> n1 Emn Emx Etn Etx gap wide.
have ff : fmin <= fmax by have := np_min_le_max (k:=0) Emn Emx; rewrite n1; apply.
have eps0 : 0 < ms_eps by rewrite /ms_eps mul1r invr_gt0 exprn_gt0 // ltr0n.
have w0 : 0 < tmax - tmin by apply: lt_le_trans wide.
rewrite /compute_ms Emn Emx Etn Etx /= n1 /= /py_get /=.
rewrite ger0_norm ?ltW // ltNge wide /=.
have -> : Num.min tmax fmax = tmax by apply/min_idPl; rewrite ltW // (lt_le_trans gap).
have -> : Num.max tmin fmin = fmin.
  apply/max_idPr; rewrite ltW // (le_lt_trans _ gap) //.
  by rewrite -subr_ge0 ltW.
rewrite big_cons big_nil addr0 divr1 sqrtr_sqr ltr0_norm.
  by rewrite pmulr_llt0 ?invr_gt0 // subr_lt0.
by rewrite -mulNr opprB.
Qed.

(** The fronts [F = [[3], [4]]] and [true_pf = [[0], [1]]]. *)
Definition ms_F : mat R := Mat 1 [:: [:: 3]; [:: 4]].
Definition ms_true_pf : mat R := Mat 1 [:: [:: 0]; [:: 1]].

Lemma ms_eps_le1 : ms_eps <= 1.
Proof.
rewrite /ms_eps mul1r invf_le1 ?exprn_gt0 ?ltr0n //.
by rewrite exprn_ege1 // ler1n.
Qed.

Lemma compute_ms_example : compute_ms ms_F ms_true_pf = Ok (Some 2).
Proof.
rewrite (@compute_ms_one_disjoint ms_F ms_true_pf 3 4 0 1) //.
- by rewrite /np_min_axis0 /=; congr (Ok [:: _]); apply/min_idPl; lra.
- by rewrite /np_max_axis0 /=; congr (Ok [:: _]); apply/max_idPr; lra.
- by rewrite /np_min_axis0 /=; congr (Ok [:: _]); apply/min_idPl; lra.
- by rewrite /np_max_axis0 /=; congr (Ok [:: _]); apply/max_idPr; lra.
- lra.
- by rewrite subr0 ms_eps_le1.
- by rewrite subr0 divr1; do 2!f_equal; lra.
Qed.

End Metrics.

(** ** select_subset (lines 171-189)

    [problem._evaluate] on one row is [evaluate]: the objective row
    [out["F"][0]]. Writing it into the row [F_saved[i]] of width [n_obj]
    broadcasts a row of length 1 and raises [ValueError] on any other
    length. *)
Section Subset.
Variable R : realFieldType.
Variable argsort : forall T : Type, rel T -> seq T -> seq nat.
Variable evaluate : seq R -> seq R.
Variable n_obj : nat.

(** [F_saved[i] = v] *)
Definition row_assign (v : seq R) : except (seq R) :=
  if size v == n_obj then Ok v
  else if size v == 1 then Ok (nseq n_obj (head 0%R v))
  else Exn (ValueError CouldNotBroadcastInto).

(** [np.array(saved)] for a non-empty list of rows of one length. *)
Definition np_array (saved : seq (seq R)) : mat R :=
  Mat (size (head [::] saved)) saved.

Definition select_subset (saved : seq (seq R)) (max_elements : nat) : except (ndarray R) :=
  let source := saved in
  let n := size source in
  if n == 0 then Ok (Arr1 [::])
  else if n <= max_elements then Ok (Arr2 (np_array source))
  else
    let* F_saved := mapM (fun ind => row_assign (evaluate ind)) source in
    let best_indices :=
      take max_elements (argsort <=%R [seq (\sum_(x <- r) x)%R | r <- F_saved]) in
    let* best_population := py_gather source best_indices in
    Ok (Arr2 (Mat (ncols (np_array source)) best_population)).

End Subset.

Section SubsetFacts.
Variable R : realFieldType.
Variable argsort : forall T : Type, rel T -> seq T -> seq nat.
Hypothesis argsort_perm :
  forall (T : Type) (le : rel T) (s : seq T), perm_eq (argsort le s) (iota 0 (size s)).
Hypothesis argsort_sorted :
  forall (T : Type) (le : rel T) (x0 : T) (s : seq T),
    total le -> sorted (fun i j => le (nth x0 s i) (nth x0 s j)) (argsort le s).
Variable evaluate : seq R -> seq R.
Variable n_obj : nat.

(** The objective sum of one archived row. *)
Definition objsum (r : seq R) : R := (\sum_(x <- evaluate r) x)%R.

Lemma mapM_row_assign (saved : seq (seq R)) :
  all (fun r => size (evaluate r) == n_obj) saved ->
  mapM (fun ind => row_assign n_obj (evaluate ind)) saved = Ok [seq evaluate r | r <- saved].
Proof.
elim: saved => [|r saved IH] //= /andP[/eqP sz /IH ->].
by rewrite /row_assign sz eqxx.
Qed.

Lemma select_subset_large (saved : seq (seq R)) (k : nat) :
  k < size saved -> all (fun r => size (evaluate r) == n_obj) saved ->
  exists best rest,
    select_subset argsort evaluate n_obj saved k =
      Ok (Arr2 (Mat (ncols (np_array saved)) best)) /\
    size best = k /\ perm_eq saved (best ++ rest) /\
    {in best & rest, forall x y, objsum x <= objsum y}%R.
Proof.
move=> kn Hs.
have n0 : size saved != 0 by rewrite -lt0n (leq_ltn_trans _ kn).
rewrite /select_subset (negbTE n0) leqNgt kn /= mapM_row_assign // bind_Ok.
set sums := [seq (\sum_(x <- r) x)%R | r <- _].
have Esums : sums = [seq objsum r | r <- saved] by rewrite /sums -map_comp.
set o := argsort _ sums.
have po : perm_eq o (iota 0 (size saved)).
  by rewrite (perm_trans (argsort_perm _ _)) // Esums size_map.
have Ho : all (fun i => i < size saved) (take k o).
  apply/allP => i /mem_take; rewrite (perm_mem po) mem_iota.
  by rewrite add0n.
rewrite (py_gather_nth [::] Ho) bind_Ok.
exists [seq nth [::] saved i | i <- take k o], [seq nth [::] saved i | i <- drop k o].
split=> //.
split; first by rewrite size_map size_take (perm_size po) size_iota kn.
split.
  rewrite -map_cat cat_take_drop -{1}(mkseq_nth [::] saved) /mkseq.
  by rewrite perm_map // perm_sym.
have so : sorted (fun i j => nth 0%R sums i <= nth 0%R sums j)%R o.
  exact: argsort_sorted (@le_total _ R).
have tr : transitive (fun i j => nth 0%R sums i <= nth 0%R sums j)%R.
  by move=> a b c h1 h2; exact: le_trans h1 h2.
rewrite (sorted_pairwise tr) in so.
move: so; rewrite -{1}(cat_take_drop k o) pairwise_cat => /andP[/allrelP H _].
move=> x y /mapP[a ain ->] /mapP[b bin ->].
have lt_of : forall c, c \in o -> c < size saved.
  by move=> c; rewrite (perm_mem po) mem_iota add0n.
have aS := lt_of a (mem_take ain); have bS := lt_of b (mem_drop bin).
have := H a b ain bin; rewrite Esums !(nth_map [::]) //.
Qed.

End SubsetFacts.

(** ** numpy array operations on 2-D arrays

    Sums are written with [foldr] so that the definitions compute. *)
Section Linalg.
Variable R : realFieldType.
Local Open Scope ring_scope.

Definition rsum (s : seq R) : R := foldr (fun x acc => x + acc) 0 s.

(** [np.atleast_2d], as [np.vstack] applies it to each argument. *)
Definition atleast_2d (a : ndarray R) : mat R :=
  match a with Arr1 v => Mat (size v) [:: v] | Arr2 M => M end.

(** [np.vstack(arrays)]: the widths must agree. *)
Definition vstack (arrays : seq (ndarray R)) : except (mat R) :=
  match [seq atleast_2d a | a <- arrays] with
  | [::] => Exn (ValueError ConcatNoArrays)
  | M :: Ms =>
      if all (fun M' => ncols M' == ncols M) Ms
      then Ok (Mat (ncols M) (flatten [seq rows M' | M' <- M :: Ms]))
      else Exn (ValueError ConcatDimMismatch)
  end.

(** [len(a)]: the length of the first axis. *)
Definition py_len (a : ndarray R) : nat :=
  match a with Arr1 v => size v | Arr2 M => size (rows M) end.

(** [A @ B] *)
Definition matmul (A B : mat R) : except (mat R) :=
  if ncols A == size (rows B) then
    Ok (Mat (ncols B)
          [seq [seq rsum [seq nth 0 r k * entry B k j | k <- iota 0 (ncols A)]
               | j <- iota 0 (ncols B)] | r <- rows A])
  else Exn (ValueError MatmulCoreDim).

(** [A + B] for arrays of one shape. *)
Definition madd (A B : mat R) : except (mat R) :=
  if (size (rows A) == size (rows B)) && (ncols A == ncols B) then
    Ok (Mat (ncols A) [seq [seq x.1 + x.2 | x <- zip rr.1 rr.2] | rr <- zip (rows A) (rows B)])
  else Exn (ValueError OperandsNotBroadcast).

Definition mscale (c : R) (A : mat R) : mat R :=
  Mat (ncols A) [seq [seq c * x | x <- r] | r <- rows A].

Definition np_eye (n : nat) : mat R :=
  Mat n [seq [seq (i == j)%:R | j <- iota 0 n] | i <- iota 0 n].

Definition np_ones (n : nat) : mat R := Mat n (nseq n (nseq n 1)).

(** Python's float division [1.0 / d] of an integer [d]. *)
Definition py_div (x : R) (d : nat) : except R :=
  if d == 0%N then Exn ZeroDivisionError else Ok (x / d%:R).

(** [A[:, idx]] *)
Definition take_cols (A : mat R) (idx : seq nat) : except (mat R) :=
  let* rs := mapM (fun r => py_gather r idx) (rows A) in Ok (Mat (size idx) rs).

(** [A[:ns, :]] *)
Definition take_rows (A : mat R) (ns : nat) : mat R := Mat (ncols A) (take ns (rows A)).

(** A 2-D array whose rows all have its width. *)
Definition wf (A : mat R) : bool := all (fun r => size r == ncols A) (rows A).

End Linalg.

(** ** TCA.fit_transform (lines 147-162) and transfer_solutions (lines 166-168)

    [rbf_kernel(X, X, gamma)], [np.linalg.inv] and [np.linalg.eigh] are
    library routines, kept as variables; [rbf_kernel] raises a
    [ValueError] on an array with no row or no column (scikit-learn's
    [check_array]), [inv] and [eigh] may raise [LinAlgError]. The kernel
    type is ['rbf'], as [transfer_solutions] configures it. *)
Section TCA.
Variable R : realFieldType.
Variable argsort : forall T : Type, rel T -> seq T -> seq nat.
Variable rbf_kernel : R -> mat R -> except (mat R).
Variable inv : mat R -> except (mat R).
Variable eigh : mat R -> except (seq R * mat R).
Local Open Scope ring_scope.

(** The matrix [L] of lines 151-155. *)
Definition tca_L (ns nt : nat) : except (mat R) :=
  let* a := py_div 1 (ns ^ 2) in
  let* b := py_div 1 (nt ^ 2) in
  let* c := py_div (-1) (ns * nt) in
  let* c' := py_div (-1) (ns * nt) in
  let n := (ns + nt)%N in
  Ok (Mat n [seq [seq if (i < ns)%N then (if (j < ns)%N then a else c)
                      else (if (j < ns)%N then c' else b)
                 | j <- iota 0 n] | i <- iota 0 n]).

(** [TCA(dim, 'rbf', lamb, gamma).fit_transform(Xs, Xt)] *)
Definition fit_transform (dim : nat) (lamb gamma : R) (Xs Xt : ndarray R) : except (mat R) :=
  let* X_all := vstack [:: Xs; Xt] in
  let ns := py_len Xs in
  let nt := py_len Xt in
  let* K := rbf_kernel gamma X_all in
  let* L := tca_L ns nt in
  let* h := py_div 1 (ns + nt) in
  let* H := madd (np_eye R (ns + nt)) (mscale (- h) (np_ones R (ns + nt))) in
  let* KI := madd K (mscale lamb (np_eye R (ns + nt))) in
  let* Kinv := inv KI in
  let* Kc := matmul Kinv K in
  let* KcL := matmul Kc L in
  let* KcLKc := matmul KcL Kc in
  let* '(eigvals, eigvecs) := eigh KcLKc in
  let idx := take dim (argsort <=%R [seq - x | x <- eigvals]) in
  let* W := take_cols eigvecs idx in
  let* Z := matmul K W in
  Ok (take_rows Z ns).

(** [transfer_solutions]: [TCA(dim=10, kernel_type='rbf', lamb=1, gamma=0.4)]. *)
Definition transfer_solutions (source_data target_data : ndarray R) : except (mat R) :=
  fit_transform 10 1 (2%:R / 5%:R) source_data target_data.

End TCA.

Section TCAFacts.
Variable R : realFieldType.
Variable argsort : forall T : Type, rel T -> seq T -> seq nat.
Variable rbf_kernel : R -> mat R -> except (mat R).
Variable inv : mat R -> except (mat R).
Variable eigh : mat R -> except (seq R * mat R).
(** The shapes the library routines return: [rbf_kernel] succeeds on an
    array with rows and columns, and the two [np.linalg] routines raise
    only [LinAlgError]. *)
Hypothesis argsort_perm :
  forall (T : Type) (le : rel T) (s : seq T), perm_eq (argsort le s) (iota 0 (size s)).
Hypothesis rbf_Ok : forall g X, 0 < size (rows X) -> 0 < ncols X ->
  exists K, rbf_kernel g X = Ok K /\ size (rows K) = size (rows X) /\ ncols K = size (rows X).
Hypothesis inv_shape : forall M M', inv M = Ok M' ->
  size (rows M') = size (rows M) /\ ncols M' = ncols M.
Hypothesis inv_exn : forall M e, inv M = Exn e -> e = LinAlgError.
Hypothesis eigh_shape : forall M w V, eigh M = Ok (w, V) ->
  size w = size (rows M) /\ size (rows V) = size (rows M) /\
  all (fun r => size r == size (rows M)) (rows V).
Hypothesis eigh_exn : forall M e, eigh M = Exn e -> e = LinAlgError.

Lemma matmul_Ok (A B : mat R) :
  ncols A = size (rows B) ->
  exists C, matmul A B = Ok C /\ size (rows C) = size (rows A) /\ ncols C = ncols B /\ wf C.
Proof.
move=> AB; rewrite /matmul AB eqxx; eexists; split; first by reflexivity.
rewrite /wf /= size_map; split=> //; split=> //.
by apply/allP => r /mapP[x _ ->]; rewrite size_map size_iota.
Qed.

Lemma py_div_Ok (x : R) (d : nat) : 0 < d -> py_div x d = Ok (x / d%:R)%R.
Proof. by rewrite /py_div; case: d. Qed.

Lemma tca_L_Ok (ns nt : nat) : 0 < ns -> 0 < nt ->
  exists L, tca_L R ns nt = Ok L /\ size (rows L) = ns + nt /\ ncols L = ns + nt.
Proof.
move=> ns0 nt0; rewrite /tca_L !py_div_Ok ?expn_gt0 ?ns0 ?nt0 ?muln_gt0 ?ns0 //=.
by eexists; split; first reflexivity; rewrite /= size_map size_iota.
Qed.

Lemma take_cols_Ok (A : mat R) (idx : seq nat) (n : nat) :
  all (fun r => size r == n) (rows A) -> all (fun i => i < n) idx ->
  exists W, take_cols A idx = Ok W /\ size (rows W) = size (rows A) /\
    ncols W = size idx.
Proof.
move=> HA Hi; rewrite /take_cols.
suff [rs [-> srs]] : exists rs, mapM (fun r => py_gather r idx) (rows A) = Ok rs /\
    size rs = size (rows A) by eexists; split; first reflexivity.
elim: (rows A) HA => [|r rs IH] /=; first by exists [::].
case/andP=> /eqP sr /IH [rs' [-> srs']].
have Hr : all (fun i => i < size r) idx by rewrite sr.
have [xs [-> _]] := py_gather_size Hr.
by exists (xs :: rs'); rewrite /= srs'.
Qed.

(** The shape of the result of [fit_transform] on two non-empty 2-D arrays
    of one width: [ns] rows of [min(dim, ns + nt)] columns, unless an
    [np.linalg] routine raises [LinAlgError]. *)
Lemma fit_transform_shape (dim : nat) (lamb gamma : R) (A B : mat R) :
  ncols A = ncols B -> 0 < ncols A -> 0 < size (rows A) -> 0 < size (rows B) ->
  match fit_transform argsort rbf_kernel inv eigh dim lamb gamma (Arr2 A) (Arr2 B) with
  | Ok Z => size (rows Z) = size (rows A) /\
            ncols Z = minn dim (size (rows A) + size (rows B)) /\ wf Z
  | Exn e => e = LinAlgError
  end.
Proof.
move=> AB c0 ns0 nt0; rewrite /fit_transform /vstack /= AB eqxx /=.
set ns := size (rows A); set nt := size (rows B).
set X := Mat _ _.
have sX : size (rows X) = ns + nt by rewrite /X /= cats0 size_cat.
have X0 : 0 < size (rows X) by rewrite sX addn_gt0 ns0.
have cX : 0 < ncols X by rewrite /= -AB.
have [K [-> [sK cK]]] := rbf_Ok gamma X0 cX; rewrite sX in sK cK.
rewrite bind_Ok.
have [L [-> [sL cL]]] := tca_L_Ok ns0 nt0.
rewrite ?bind_Ok py_div_Ok ?addn_gt0 ?ns0 // ?bind_Ok.
rewrite /madd /= !size_map !size_iota size_nseq eqxx /=.
rewrite sK cK !eqxx /=.
case Ei: (inv _) => [Kinv|e] /=; last exact: inv_exn Ei.
have [sKi cKi] := inv_shape Ei; rewrite /= size_map size_zip sK !size_map ?size_iota minnn in sKi.
have h1 : ncols Kinv = size (rows K) by rewrite cKi sK.
have [Kc [-> [sKc [cKc _]]]] := matmul_Ok h1.
rewrite bind_Ok.
have h2 : ncols Kc = size (rows L) by rewrite cKc cK sL.
have [KcL [-> [sKcL [cKcL _]]]] := matmul_Ok h2.
rewrite bind_Ok.
have h3 : ncols KcL = size (rows Kc) by rewrite cKcL cL sKc sKi.
have [M [-> [sM [cM _]]]] := matmul_Ok h3.
rewrite bind_Ok.
rewrite ?bind_Ok.
case Ee: (eigh M) => [[w V]|e] /=; last exact: eigh_exn Ee.
have [sw [sV aV]] := eigh_shape Ee.
rewrite sM sKcL sKc sKi in sw sV aV.
set idx := take dim _.
have sidx : size idx = minn dim (ns + nt).
  rewrite /idx size_take_min (perm_size (argsort_perm _ _)) size_iota size_map sw.
  by [].
have Hidx : all (fun i => i < ns + nt) idx.
  apply/allP => i /mem_take; rewrite (perm_mem (argsort_perm _ _)) mem_iota.
  by rewrite size_map sw add0n.
have [W [-> [sW cW]]] := take_cols_Ok aV Hidx.
rewrite bind_Ok.
have h4 : ncols K = size (rows W) by rewrite cK sW sV.
have [Z [-> [sZ [cZ wZ]]]] := matmul_Ok h4.
rewrite bind_Ok /= size_takel; first by rewrite sZ sK leq_addr.
split=> //.
split; first by rewrite cZ cW sidx.
rewrite /wf /=; apply/allP => r /mem_take; move/allP: wZ => /[apply].
by rewrite cZ.
Qed.

End TCAFacts.

(** ** The seed population of a non-initial environment (lines 281-308)

    [np.random.uniform(low, high, size)] broadcasts [low] and [high]
    (vectors of [problem.n_var] bounds) against [size], whose last axis
    must match them or they must have length 1; each entry is then
    [low + (high - low) * random_sample()], drawn in row-major order.
    pymoo's non-dominated sorting of the archive's objectives is
    [non_dominated]; the problem's objective evaluation of one row is
    [evaluate]. *)
Section Seed.
Variable R : realFieldType.
Variable Rng : Type.
Variable random_sample : Rng -> R * Rng.
Variable permutation : Rng -> nat -> seq nat * Rng.
Variable argsort : forall T : Type, rel T -> seq T -> seq nat.
Variable rbf_kernel : R -> mat R -> except (mat R).
Variable inv : mat R -> except (mat R).
Variable eigh : mat R -> except (seq R * mat R).
Variable Problem : Type.
Variables (xl xu : Problem -> seq R) (n_var n_obj : Problem -> nat).
Variable evaluate : Problem -> seq R -> seq R.
Variable non_dominated : mat R -> seq nat.
Local Open Scope ring_scope.

Fixpoint uniform_row (g : Rng) (bounds : seq (R * R)) : seq R * Rng :=
  match bounds with
  | [::] => ([::], g)
  | (lo, hi) :: bounds' =>
      let: (u, g1) := random_sample g in
      let: (r, g2) := uniform_row g1 bounds' in
      ((lo + (hi - lo) * u) :: r, g2)
  end.

Fixpoint uniform_rows (g : Rng) (bounds : seq (R * R)) (m : nat) : seq (seq R) * Rng :=
  match m with
  | 0%N => ([::], g)
  | m'.+1 =>
      let: (r, g1) := uniform_row g bounds in
      let: (rs, g2) := uniform_rows g1 bounds m' in
      (r :: rs, g2)
  end.

(** [np.random.uniform(low, high, (m, c))] *)
Definition np_uniform (g : Rng) (low high : seq R) (m c : nat) : except (mat R * Rng) :=
  let bcast v := if size v == c then Ok v
                 else if size v == 1%N then Ok (nseq c (head 0 v))
                 else Exn (ValueError ShapeMismatch) in
  let* lo := bcast low in
  let* hi := bcast high in
  let: (rs, g') := uniform_rows g (zip lo hi) m in
  Ok (Mat c rs, g').

(** [np.array(saved)]: a 1-D empty array for an empty list. *)
Definition np_array_saved (saved : seq (seq R)) : ndarray R :=
  if saved is [::] then Arr1 [::] else Arr2 (np_array saved).

(** [a[idx]] along the first axis. *)
Definition index_rows (a : ndarray R) (idx : seq nat) : except (ndarray R) :=
  match a with
  | Arr1 v => let* v' := py_gather v idx in Ok (Arr1 v')
  | Arr2 M => let* rs := py_gather (rows M) idx in Ok (Arr2 (Mat (ncols M) rs))
  end.

Definition population_size : nat := 100.

(** Lines 282-308: from the archive [saved], the array [full_sampling]
    handed to [get_algorithm]. *)
Definition seed_population (problem : Problem) (saved : seq (seq R)) (g : Rng)
    : except (mat R * Rng) :=
  let xl := xl problem in
  let xu := xu problem in
  let* '(random_target_population, g) := np_uniform g xl xu 50 10 in
  let* subset := select_subset argsort (evaluate problem) (n_obj problem) saved 100 in
  let* transferred_population :=
    transfer_solutions argsort rbf_kernel inv eigh subset (Arr2 random_target_population) in
  let* F_saved := mapM (fun ind => row_assign (n_obj problem) (evaluate problem ind)) saved in
  let nds := non_dominated (Mat (n_obj problem) F_saved) in
  let* nd_front := index_rows (np_array_saved saved) nds in
  let* F_nd_front := py_gather F_saved nds in
  let* cd := crowding_distance argsort (Mat (n_obj problem) F_nd_front) in
  let selected_indices := take 40 (argsort (@fext_le R) [seq fext_opp x | x <- cd]) in
  let* best_40_population := index_rows nd_front selected_indices in
  let* '(selected_indices, g) :=
    np_choice permutation g (size (rows transferred_population))
      (minn 40 (size (rows transferred_population))) in
  let* selected_transferred := index_rows (Arr2 transferred_population) selected_indices in
  let* '(random_target_population, g) := np_uniform g xl xu 20 10 in
  let* final_initial_population :=
    vstack [:: selected_transferred; Arr2 random_target_population; best_40_population] in
  let len_final := size (rows final_initial_population) in
  if (population_size < len_final)%N then Exn (ValueError NegativeDims) else
  let n_needed := (population_size - len_final)%N in
  let* '(random_fill, g) := np_uniform g xl xu n_needed (n_var problem) in
  let* full_sampling := vstack [:: Arr2 final_initial_population; Arr2 random_fill] in
  Ok (full_sampling, g).

End Seed.

Section SeedFacts.
Variable R : realFieldType.
Variable Rng : Type.
Variable random_sample : Rng -> R * Rng.

Lemma uniform_row_size (g : Rng) (bounds : seq (R * R)) :
  size (uniform_row random_sample g bounds).1 = size bounds.
Proof.
elim: bounds g => [|[lo hi] bounds IH] g //=.
case: (random_sample g) => u g1; case E: (uniform_row _ g1 bounds) => [r g2] /=.
by rewrite -(IH g1) E.
Qed.

Lemma uniform_rows_size (g : Rng) (bounds : seq (R * R)) (m : nat) :
  let rs := (uniform_rows random_sample g bounds m).1 in
  size rs = m /\ all (fun r => size r == size bounds) rs.
Proof.
elim: m g => [|m IH] g //=.
case E1: (uniform_row _ g bounds) => [r g1]; case E2: (uniform_rows _ g1 bounds m) => [rs g2] /=.
have [sz Hrs] := IH g1; rewrite E2 /= in sz Hrs.
have := uniform_row_size g bounds; rewrite E1 /= => sr.
by rewrite sz sr eqxx Hrs.
Qed.

(** [np.random.uniform(low, high, (m, c))] with [c] bounds on each side. *)
Lemma np_uniform_Ok (g : Rng) (low high : seq R) (m c : nat) :
  size low = c -> size high = c ->
  exists M g', np_uniform random_sample g low high m c = Ok (M, g') /\
    size (rows M) = m /\ ncols M = c /\ wf M.
Proof.
move=> sl sh; rewrite /np_uniform sl sh eqxx /=.
case E: (uniform_rows _ g _ m) => [rs g'] /=.
exists (Mat c rs), g'; split=> //.
have [srs ars] := uniform_rows_size g (zip low high) m; rewrite E /= in srs ars.
split=> //; split=> //; move: ars; rewrite /wf /= size_zip sl sh minnn.
by [].
Qed.

(** A first dimension other than [c] and than 1 is refused. *)
Lemma np_uniform_mismatch (g : Rng) (low high : seq R) (m c : nat) :
  size low != c -> size low != 1%N ->
  np_uniform random_sample g low high m c = Exn (ValueError ShapeMismatch).
Proof. by move=> h1 h2; rewrite /np_uniform (negbTE h1) (negbTE h2). Qed.

End SeedFacts.

Section SeedShape.
Variable R : realFieldType.
Variable Rng : Type.
Variable random_sample : Rng -> R * Rng.
Variable permutation : Rng -> nat -> seq nat * Rng.
Variable argsort : forall T : Type, rel T -> seq T -> seq nat.
Variable rbf_kernel : R -> mat R -> except (mat R).
Variable inv : mat R -> except (mat R).
Variable eigh : mat R -> except (seq R * mat R).
Variable Problem : Type.
Variables (xl xu : Problem -> seq R) (n_var n_obj : Problem -> nat).
Variable evaluate : Problem -> seq R -> seq R.
Variable non_dominated : mat R -> seq nat.
(** The contracts of the library routines. *)
Hypothesis permutation_spec : forall g n, perm_eq (permutation g n).1 (iota 0 n).
Hypothesis argsort_perm :
  forall (T : Type) (le : rel T) (s : seq T), perm_eq (argsort le s) (iota 0 (size s)).
Hypothesis argsort_sorted :
  forall (T : Type) (le : rel T) (x0 : T) (s : seq T),
    total le -> sorted (fun i j => le (nth x0 s i) (nth x0 s j)) (argsort le s).
Hypothesis rbf_Ok : forall g X, 0 < size (rows X) -> 0 < ncols X ->
  exists K, rbf_kernel g X = Ok K /\ size (rows K) = size (rows X) /\ ncols K = size (rows X).
Hypothesis inv_shape : forall M M', inv M = Ok M' ->
  size (rows M') = size (rows M) /\ ncols M' = ncols M.
Hypothesis inv_exn : forall M e, inv M = Exn e -> e = LinAlgError.
Hypothesis eigh_shape : forall M w V, eigh M = Ok (w, V) ->
  size w = size (rows M) /\ size (rows V) = size (rows M) /\
  all (fun r => size r == size (rows M)) (rows V).
Hypothesis eigh_exn : forall M e, eigh M = Exn e -> e = LinAlgError.
(** The first front of a non-empty set of points is a non-empty list of
    its indices. *)
Hypothesis non_dominated_spec : forall F, 0 < size (rows F) ->
  0 < size (non_dominated F) /\ all (fun i => i < size (rows F)) (non_dominated F).

Definition seed_step (p : Problem) (saved : seq (seq R)) (g : Rng) :=
  seed_population random_sample permutation argsort rbf_kernel inv eigh
    xl xu n_var n_obj evaluate non_dominated p saved g.

(** [np.array(saved)] of a non-empty archive of [w]-wide rows is [w] wide. *)
Lemma np_array_ncols (saved : seq (seq R)) (w : nat) :
  saved != [::] -> all (fun r => size r == w) saved -> ncols (np_array saved) = w.
Proof. by case: saved => [|r s] //= _ /andP[/eqP]. Qed.

(** [select_subset(saved, problem, 100)] on a non-empty archive is a 2-D
    array of at most 100 of its rows. *)
Lemma select_subset_archive (p : Problem) (saved : seq (seq R)) (w : nat) :
  saved != [::] -> all (fun r => size r == w) saved ->
  all (fun r => size (evaluate p r) == n_obj p) saved ->
  exists A, select_subset argsort (evaluate p) (n_obj p) saved 100 = Ok (Arr2 A) /\
    ncols A = w /\ size (rows A) = minn (size saved) 100.
Proof.
move=> sne ww wev.
have cw := np_array_ncols sne ww.
case: (leqP (size saved) 100) => h.
  exists (np_array saved); rewrite /select_subset h.
  have sz0 : (size saved == 0) = false by rewrite size_eq0; exact: negbTE.
  by rewrite sz0.
have [best [rest [E [sb _]]]] := select_subset_large argsort_perm argsort_sorted h wev.
exists (Mat (ncols (np_array saved)) best); by split.
Qed.

Lemma index_rows_Ok (M : mat R) (idx : seq nat) :
  all (fun i => i < size (rows M)) idx ->
  exists rs, index_rows (Arr2 M) idx = Ok (Arr2 (Mat (ncols M) rs)) /\ size rs = size idx.
Proof. by move=> h; have [xs [E s]] := py_gather_size h; exists xs; rewrite /= E. Qed.

(** [np.random.uniform] with bounds of length 1 broadcasts them. *)
Lemma np_uniform_bcast1 (g : Rng) (low high : seq R) (m c : nat) :
  size low = 1%N -> size high = 1%N ->
  exists M g', np_uniform random_sample g low high m c = Ok (M, g') /\ ncols M = c.
Proof.
move=> sl sh; rewrite /np_uniform sl sh /=.
by case: (1 == c)%N => /=; case: (uniform_rows _ _ _ _) => rs g'; exists (Mat c rs), g'.
Qed.

(** The stacking [np.vstack((Xs, Xt))] that opens [fit_transform] refuses
    arrays of different widths. *)
Lemma fit_transform_width_mismatch (dim : nat) (lamb gamma : R) (A B : mat R) :
  ncols A != ncols B ->
  fit_transform argsort rbf_kernel inv eigh dim lamb gamma (Arr2 A) (Arr2 B) =
    Exn (ValueError ConcatDimMismatch).
Proof. by move=> h; rewrite /fit_transform /vstack /= eq_sym (negbTE h). Qed.

(** With 10 bounds on each side, [n_var = 10], and a non-empty archive of
    10-wide rows, the seed population has [population_size] rows of width
    10; the only exception left is a [LinAlgError] of the two
    [np.linalg] routines. *)
Lemma seed_population_full (p : Problem) (saved : seq (seq R)) (g : Rng) :
  size (xl p) = 10 -> size (xu p) = 10 -> n_var p = 10 ->
  saved != [::] -> all (fun r => size r == 10) saved ->
  all (fun r => size (evaluate p r) == n_obj p) saved ->
  match seed_step p saved g with
  | Ok (M, _) => size (rows M) = population_size /\ ncols M = 10
  | Exn e => e = LinAlgError
  end.
Proof.
move=> sl su nv sne w10 wev.
rewrite /seed_step /seed_population.
have [T0 [g1 [E1 [sT0 [cT0 _]]]]] := @np_uniform_Ok R Rng random_sample g (xl p) (xu p) 50 10 sl su.
rewrite E1 bind_Ok.
have [A [EA [cA sA]]] := select_subset_archive sne w10 wev.
rewrite EA bind_Ok.
have FT := @fit_transform_shape R argsort rbf_kernel inv eigh argsort_perm rbf_Ok
  inv_shape inv_exn eigh_shape eigh_exn 10 1 (2%:R / 5%:R) A T0.
have s0 : 0 < size saved by rewrite lt0n size_eq0.
move: FT; rewrite /transfer_solutions cA cT0 sA sT0 leq_min s0 /=.
move=> /(_ erefl erefl erefl erefl).
case: (fit_transform _ _ _ _ _ _ _ _ _) => [Z [sZ [cZ _]]|e] //=.
rewrite (mapM_row_assign wev) bind_Ok.
set F := [seq evaluate p r | r <- saved].
have sF : size F = size saved by rewrite size_map.
have hF : 0 < size (rows (Mat (n_obj p) F)) by rewrite /= sF.
have [nds0 ndslt] := non_dominated_spec hF.
rewrite /= sF in ndslt.
set nds := non_dominated _ in nds0 ndslt *.
have -> : np_array_saved saved = Arr2 (np_array saved) by case: (saved) sne.
have [nd [End snd]] := @index_rows_Ok (np_array saved) nds ndslt.
rewrite End bind_Ok.
have ndslt' : all (fun i => i < size F) nds by rewrite sF.
have [Fnd [EFnd sFnd]] := py_gather_size ndslt'.
rewrite EFnd bind_Ok.
have hFnd : 0 < size (rows (Mat (n_obj p) Fnd)) by rewrite /= sFnd.
have [d [Ed [sd _]]] := crowding_distance_spec argsort_perm hFnd.
rewrite Ed bind_Ok.
have c10 := np_array_ncols sne w10.
rewrite /= in sd.
set sel := take 40 _.
have sellt : all (fun i => i < size (rows (Mat 10 nd))) sel.
  apply/allP => i /mem_take; rewrite (perm_mem (argsort_perm _ _)) mem_iota.
  by rewrite size_map sd add0n /= snd sFnd.
have [b40 [Eb sb]] := index_rows_Ok sellt.
rewrite c10 Eb bind_Ok.
rewrite np_choice_Ok ?geq_minr // bind_Ok.
have [st [Est sst]] := index_rows_Ok (np_choice_lt permutation_spec g1 (size (rows Z)) (minn 40 (size (rows Z)))).
rewrite /= in Est; rewrite Est bind_Ok.
have [T1 [g2 [E2 [sT1 [cT1 _]]]]] := @np_uniform_Ok R Rng random_sample (permutation g1 (size (rows Z))).2 (xl p) (xu p) 20 10 sl su.
rewrite E2 bind_Ok.
have cZ' : ncols Z = 10.
  by rewrite cZ; apply/minn_idPl; exact: leq_trans (isT : 10 <= 50) (leq_addl _ _).
have hst : size st <= 40.
  by rewrite sst size_take_min; apply: leq_trans (geq_minl _ _) (geq_minl _ _).
have hb : size b40 <= 40 by rewrite sb size_take_min geq_minl.
rewrite /vstack /= cZ' cT1 eqxx /= !size_cat sT1 /= addn0.
have hlen : size st + (20 + size b40) <= population_size.
  by rewrite /population_size; apply: (leq_add hst); rewrite (leq_add (leqnn 20) hb).
rewrite ltnNge hlen /= nv.
have [T2 [g3 [E3 [sT2 [cT2 _]]]]] := @np_uniform_Ok R Rng random_sample g2 (xl p) (xu p)
  (population_size - (size st + (20 + size b40))) 10 sl su.
rewrite E3 bind_Ok /= cT2 eqxx /=.
by rewrite !cats0 !size_cat sT2 sT1 subnKC.
Qed.

(** A problem whose [n_var] is not 10, with [n_var] bounds on each side and
    an archive of [n_var]-wide rows: the first [np.random.uniform] call
    refuses the bounds, unless [n_var = 1], when they broadcast and the
    stacking of archive and target inside [fit_transform] fails. *)
Lemma seed_population_nvar (p : Problem) (saved : seq (seq R)) (g : Rng) :
  n_var p != 10 -> size (xl p) = n_var p -> size (xu p) = n_var p ->
  saved != [::] -> all (fun r => size r == n_var p) saved ->
  all (fun r => size (evaluate p r) == n_obj p) saved ->
  seed_step p saved g =
    Exn (ValueError (if n_var p == 1%N then ConcatDimMismatch else ShapeMismatch)).
Proof.
move=> n10 sl su sne ww wev; rewrite /seed_step /seed_population.
case: eqP => [n1|/eqP n1].
  rewrite n1 in sl su ww.
  have [T0 [g1 [E1 cT0]]] := @np_uniform_bcast1 g (xl p) (xu p) 50 10 sl su.
  rewrite E1 bind_Ok.
  have [A [EA [cA _]]] := select_subset_archive sne ww wev.
  rewrite EA bind_Ok /transfer_solutions fit_transform_width_mismatch //.
  by rewrite cA cT0.
by rewrite /= np_uniform_mismatch // sl.
Qed.

End SeedShape.

(** ** Binary rationals

    [Qcanon.Qc], the Standard Library's rationals in lowest terms over
    binary integers, made a [realFieldType] through the embedding [qc_rat]
    into MathComp's [rat]: the concrete runs below compute over it with
    [vm_compute], where the unary [rat] would be too slow. *)
Section QcField.
Local Open Scope ring_scope.

Definition to_mq (q : QArith_base.Q) : RatDef.Q :=
  RatDef.Qmake (QArith_base.Qnum q) (QArith_base.Qden q).
Lemma to_mq_plus x y : to_mq (QArith_base.Qplus x y) = RatDef.Qplus (to_mq x) (to_mq y).
Proof. by case: x; case: y. Qed.
Lemma to_mq_mult x y : to_mq (QArith_base.Qmult x y) = RatDef.Qmult (to_mq x) (to_mq y).
Proof. by case: x; case: y. Qed.
Lemma to_mq_opp x : to_mq (QArith_base.Qopp x) = RatDef.Qopp (to_mq x).
Proof. by case: x. Qed.
Lemma to_mq_inv x : to_mq (QArith_base.Qinv x) = RatDef.Qinv (to_mq x).
Proof. by case: x => [[|p|p] d]. Qed.
Lemma to_mq_eqb x y : QArith_base.Qeq_bool x y = RatDef.Qeq_bool (to_mq x) (to_mq y).
Proof. by case: x; case: y. Qed.
Lemma to_mq_leb x y : QArith_base.Qle_bool x y = RatDef.Qle_bool (to_mq x) (to_mq y).
Proof. by case: x; case: y. Qed.

Definition qc : Set := Qcanon.Qc.
Definition qc_rat (x : qc) : rat := rat_of_Q (to_mq (Qcanon.this x)).

Lemma Qrat_eqb (x y : QArith_base.Q) :
  QArith_base.Qeq_bool x y = (rat_of_Q (to_mq x) == rat_of_Q (to_mq y)).
Proof. by rewrite to_mq_eqb (Qrat_eq (Qrat_rat_of_Q _) (Qrat_rat_of_Q _)). Qed.

Lemma Qrat_leb (x y : QArith_base.Q) :
  QArith_base.Qle_bool x y = (rat_of_Q (to_mq x) <= rat_of_Q (to_mq y)).
Proof. by rewrite to_mq_leb (Qrat_le (Qrat_rat_of_Q _) (Qrat_rat_of_Q _)). Qed.

Lemma rat_of_Qred (q : QArith_base.Q) :
  rat_of_Q (to_mq (Qreduction.Qred q)) = rat_of_Q (to_mq q).
Proof.
by apply/eqP; rewrite -Qrat_eqb; apply/QArith_base.Qeq_bool_iff; apply: Qreduction.Qred_correct.
Qed.

Lemma qc_rat_inj : injective qc_rat.
Proof.
move=> x y E; apply: Qcanon.Qc_is_canon; apply QArith_base.Qeq_bool_iff.
by rewrite Qrat_eqb; apply/eqP.
Qed.

Definition qc_eqb (x y : qc) : bool := QArith_base.Qeq_bool (Qcanon.this x) (Qcanon.this y).
Lemma qc_eqP : Equality.axiom qc_eqb.
Proof.
move=> x y; rewrite /qc_eqb Qrat_eqb; apply: (iffP idP) => [/eqP|->] //.
exact: qc_rat_inj.
Qed.
HB.instance Definition _ := hasDecEq.Build qc qc_eqP.

Definition Z_of_int (i : int) : BinNums.Z :=
  match i with Posz n => BinInt.Z.of_nat n | Negz n => BinNums.Zneg (BinPos.Pos.of_succ_nat n) end.

Lemma int_of_Z_of_int (i : int) : int_of_Z (Z_of_int i) = i.
Proof.
case: i => [[|n]|n] //=.
  by rewrite /int_of_Z /= Pnat.SuccNat2Pos.id_succ.
by rewrite /int_of_Z /= Pnat.SuccNat2Pos.id_succ NegzE.
Qed.

Definition qc_of_rat (r : rat) : qc :=
  Qcanon.Q2Qc (QArith_base.Qmake (Z_of_int (numq r)) (BinPos.Pos.of_nat `|denq r|%N)).

Lemma qc_of_ratK : cancel qc_of_rat qc_rat.
Proof.
move=> r; rewrite /qc_rat /qc_of_rat.
change (rat_of_Q (to_mq (Qreduction.Qred (QArith_base.Qmake (Z_of_int (numq r)) (BinPos.Pos.of_nat `|denq r|%N)))) = r).
rewrite rat_of_Qred /rat_of_Q /= int_of_Z_of_int.
have d0 : (0 < `|denq r|)%N by rewrite absz_gt0 denq_neq0.
have -> : BinNums.PosDef.Pos.to_nat (BinPos.Pos.of_nat `|denq r|) = `|denq r|%N.
  by apply: Pnat.Nat2Pos.id; case: (`|denq r|%N) d0.
have -> : (`|denq r|%N)%:R = (denq r)%:~R :> rat.
  by rewrite -[in RHS](gez0_abs (ltW (denq_gt0 r))).
exact: divq_num_den.
Qed.

Lemma qc_ratK : cancel qc_rat qc_of_rat.
Proof. by move=> x; apply: qc_rat_inj; rewrite qc_of_ratK. Qed.

HB.instance Definition _ := CanHasChoice qc_ratK.

Definition qc0 : qc := Qcanon.Q2Qc (QArith_base.Qmake BinNums.Z0 BinNums.xH).
Definition qc1 : qc := Qcanon.Q2Qc (QArith_base.Qmake (BinNums.Zpos BinNums.xH) BinNums.xH).
Definition qc_add (x y : qc) : qc := Qcanon.Qcplus x y.
Definition qc_opp (x : qc) : qc := Qcanon.Qcopp x.
Definition qc_mul (x y : qc) : qc := Qcanon.Qcmult x y.
Definition qc_inv (x : qc) : qc := Qcanon.Qcinv x.

Lemma qc_rat0 : qc_rat qc0 = 0. Proof. by []. Qed.
Lemma qc_rat1 : qc_rat qc1 = 1. Proof. by []. Qed.

Lemma qc_ratD x y : qc_rat (qc_add x y) = qc_rat x + qc_rat y.
Proof.
rewrite /qc_rat /qc_add /Qcanon.Qcplus.
change (rat_of_Q (to_mq (Qreduction.Qred (QArith_base.Qplus (Qcanon.this x) (Qcanon.this y)))) =
  rat_of_Q (to_mq (Qcanon.this x)) + rat_of_Q (to_mq (Qcanon.this y))).
by rewrite rat_of_Qred to_mq_plus; apply/eqP/QratD.
Qed.

Lemma qc_ratM x y : qc_rat (qc_mul x y) = qc_rat x * qc_rat y.
Proof.
rewrite /qc_rat /qc_mul /Qcanon.Qcmult.
change (rat_of_Q (to_mq (Qreduction.Qred (QArith_base.Qmult (Qcanon.this x) (Qcanon.this y)))) =
  rat_of_Q (to_mq (Qcanon.this x)) * rat_of_Q (to_mq (Qcanon.this y))).
by rewrite rat_of_Qred to_mq_mult; apply/eqP/QratM.
Qed.

Lemma qc_ratN x : qc_rat (qc_opp x) = - qc_rat x.
Proof.
rewrite /qc_rat /qc_opp /Qcanon.Qcopp.
change (rat_of_Q (to_mq (Qreduction.Qred (QArith_base.Qopp (Qcanon.this x)))) =
  - rat_of_Q (to_mq (Qcanon.this x))).
by rewrite rat_of_Qred to_mq_opp; apply/eqP/QratN.
Qed.

Lemma qc_ratV x : qc_rat (qc_inv x) = (qc_rat x)^-1.
Proof.
rewrite /qc_rat /qc_inv /Qcanon.Qcinv.
change (rat_of_Q (to_mq (Qreduction.Qred (QArith_base.Qinv (Qcanon.this x)))) =
  (rat_of_Q (to_mq (Qcanon.this x)))^-1).
by rewrite rat_of_Qred to_mq_inv; apply/eqP/QratV.
Qed.

Lemma qc_addA : associative qc_add.
Proof. by move=> x y z; apply: qc_rat_inj; rewrite !qc_ratD addrA. Qed.
Lemma qc_addC : commutative qc_add.
Proof. by move=> x y; apply: qc_rat_inj; rewrite !qc_ratD addrC. Qed.
Lemma qc_add0 : left_id qc0 qc_add.
Proof. by move=> x; apply: qc_rat_inj; rewrite !qc_ratD qc_rat0 add0r. Qed.
Lemma qc_addN : left_inverse qc0 qc_opp qc_add.
Proof. by move=> x; apply: qc_rat_inj; rewrite !qc_ratD qc_ratN qc_rat0 addNr. Qed.
HB.instance Definition _ := GRing.isZmodule.Build qc qc_addA qc_addC qc_add0 qc_addN.

Lemma qc_mulA : associative qc_mul.
Proof. by move=> x y z; apply: qc_rat_inj; rewrite !qc_ratM mulrA. Qed.
Lemma qc_mulC : commutative qc_mul.
Proof. by move=> x y; apply: qc_rat_inj; rewrite !qc_ratM mulrC. Qed.
Lemma qc_mul1 : left_id qc1 qc_mul.
Proof. by move=> x; apply: qc_rat_inj; rewrite !qc_ratM qc_rat1 mul1r. Qed.
Lemma qc_mulDl : left_distributive qc_mul qc_add.
Proof. by move=> x y z; apply: qc_rat_inj; rewrite !(qc_ratM, qc_ratD) mulrDl. Qed.
Lemma qc_1neq0 : qc1 != qc0. Proof. by []. Qed.
HB.instance Definition _ :=
  GRing.Zmodule_isComNzRing.Build qc qc_mulA qc_mulC qc_mul1 qc_mulDl qc_1neq0.

Lemma qc_mulV (x : qc) : x != 0 -> qc_mul (qc_inv x) x = 1.
Proof.
move=> x0; apply: qc_rat_inj; rewrite qc_ratM qc_ratV qc_rat1 mulVf //.
by apply: contra x0 => /eqP E; apply/eqP; apply: qc_rat_inj; rewrite E.
Qed.
Lemma qc_inv0 : qc_inv 0 = 0. Proof. by []. Qed.
HB.instance Definition _ := GRing.ComNzRing_isField.Build qc qc_mulV qc_inv0.

Definition qc_le (x y : qc) : bool := QArith_base.Qle_bool (Qcanon.this x) (Qcanon.this y).
Definition qc_lt (x y : qc) : bool := (y != x) && qc_le x y.
Definition qc_norm (x : qc) : qc := if qc_le 0 x then x else - x.

Lemma qc_rat_le x y : qc_le x y = (qc_rat x <= qc_rat y).
Proof. exact: Qrat_leb. Qed.

Lemma qc_ratB x y : qc_rat (x - y) = qc_rat x - qc_rat y.
Proof. by rewrite [x - y]/(qc_add x (qc_opp y)) qc_ratD qc_ratN. Qed.

Lemma qc_le0_add x y : qc_le 0 x -> qc_le 0 y -> qc_le 0 (x + y).
Proof. by rewrite !qc_rat_le [x + y]/(qc_add x y) qc_ratD qc_rat0; exact: addr_ge0. Qed.
Lemma qc_le0_mul x y : qc_le 0 x -> qc_le 0 y -> qc_le 0 (x * y).
Proof. by rewrite !qc_rat_le [x * y]/(qc_mul x y) qc_ratM qc_rat0; exact: mulr_ge0. Qed.
Lemma qc_le0_anti x : qc_le 0 x -> qc_le x 0 -> x = 0.
Proof.
rewrite !qc_rat_le qc_rat0 => a b; apply: qc_rat_inj; rewrite qc_rat0.
by apply/eqP; rewrite eq_le a b.
Qed.
Lemma qc_sub_ge0 x y : qc_le 0 (y - x) = qc_le x y.
Proof. by rewrite !qc_rat_le qc_ratB qc_rat0 subr_ge0. Qed.
Lemma qc_le0_total x : qc_le 0 x || qc_le x 0.
Proof. by rewrite !qc_rat_le qc_rat0 le_total. Qed.
Lemma qc_normN x : qc_norm (- x) = qc_norm x.
Proof.
apply: qc_rat_inj; rewrite /qc_norm !qc_rat_le qc_rat0.
rewrite [- x]/(qc_opp x) !qc_ratN oppr_ge0.
case: (ltrgtP (qc_rat x) 0) => [x0|x0|x0]; rewrite ?qc_ratN ?opprK //.
by rewrite x0 oppr0.
Qed.
Lemma qc_ge0_norm x : qc_le 0 x -> qc_norm x = x.
Proof. by rewrite /qc_norm => ->. Qed.
Lemma qc_lt_def x y : qc_lt x y = (y != x) && qc_le x y.
Proof. by []. Qed.
HB.instance Definition _ := Num.IntegralDomain_isLeReal.Build qc
  qc_le0_add qc_le0_mul qc_le0_anti qc_sub_ge0 qc_le0_total qc_normN qc_ge0_norm qc_lt_def.

End QcField.

(** ** Instances of the library routines

    Routines that meet the contracts above, used to run the embedding on
    concrete inputs, over any real field.
    - [crandom_sample]: a generator whose state counts the draws and whose
      every draw is 0.
    - [cpermutation]: [np.random.permutation(n)] drawing the identity.
    - [crbf]: [rbf_kernel(X, X, gamma)] when the rows of [X] are all equal,
      [exp(-gamma * 0) = 1] everywhere; like scikit-learn's, it raises a
      [ValueError] on an array with no row or no column.
    - [cinv]: [np.linalg.inv] by Gauss-Jordan elimination; it raises
      [LinAlgError] on a singular or non-square matrix, and returns only a
      matrix [N] whose product [M @ N] it has checked to be the identity.
    - [ceigh]: [np.linalg.eigh] of the zero matrix, eigenvalues 0 and the
      identity as eigenvectors; it raises on any other matrix.
    - [cfront]: a non-dominated sorting that reports the first point. *)

Definition cpermutation (g n : nat) : seq nat * nat := (iota 0 n, g.+1).

Lemma cpermutation_spec (g n : nat) : perm_eq (cpermutation g n).1 (iota 0 n).
Proof. exact: perm_refl. Qed.

Section Concrete.
Context {R : realFieldType}.
Local Open Scope ring_scope.

Definition crandom_sample (g : nat) : R * nat := (0, g.+1).

Definition crbf_mat (X : mat R) : mat R :=
  Mat (size (rows X)) (nseq (size (rows X)) (nseq (size (rows X)) 1)).

Definition crbf (gamma : R) (X : mat R) : except (mat R) :=
  if (size (rows X) == 0)%N || (ncols X == 0)%N then Exn (ValueError MinSamplesFeatures)
  else Ok (crbf_mat X).

(** The index, counted from [i], of the first of the rows [A] whose entry
    [k] is not zero. *)
Fixpoint gj_pivot (k i : nat) (A : seq (seq R)) : option nat :=
  match A with
  | [::] => None
  | r :: A' => if nth 0 r k != 0 then Some i else gj_pivot k i.+1 A'
  end.

(** Column [k]: swap a pivot row into row [k], scale it to a pivot 1, and
    clear column [k] in every other row. *)
Definition gj_step (k : nat) (A : seq (seq R)) : option (seq (seq R)) :=
  if gj_pivot k k (drop k A) is Some p then
    let rp := nth [::] A p in
    let rk := [seq x / nth 0 rp k | x <- rp] in
    Some [seq if i == k then rk
              else let r := nth [::] A (if i == p then k else i) in
                   [seq x.1 - nth 0 r k * x.2 | x <- zip r rk]
         | i <- iota 0 (size A)]
  else None.

Fixpoint gj_loop (k fuel : nat) (A : seq (seq R)) : option (seq (seq R)) :=
  match fuel with
  | 0 => Some A
  | fuel'.+1 => if gj_step k A is Some A' then gj_loop k.+1 fuel' A' else None
  end.

(** Gauss-Jordan elimination on [[M | I]]; the right half of the result. *)
Definition gauss_jordan_inv (M : mat R) : option (seq (seq R)) :=
  let n := size (rows M) in
  let A := [seq x.1 ++ [seq (x.2 == j)%:R | j <- iota 0 n] | x <- zip (rows M) (iota 0 n)] in
  omap (map (drop n)) (gj_loop 0 n A).

Definition cinv (M : mat R) : except (mat R) :=
  let n := size (rows M) in
  if gauss_jordan_inv M is Some rs then
    let N := Mat n rs in
    let inverse := if matmul M N is Ok P then rows P == rows (np_eye R n) else false in
    if [&& ncols M == n, wf M, size rs == n & inverse] then Ok N else Exn LinAlgError
  else Exn LinAlgError.

Definition ceigh (M : mat R) : except (seq R * mat R) :=
  if all (all (fun x => x == 0)) (rows M) then
    Ok (nseq (size (rows M)) 0, np_eye R (size (rows M)))
  else Exn LinAlgError.

Definition cfront (F : mat R) : seq nat := if rows F is [::] then [::] else [:: 0].

(** A problem for the concrete runs: [n_var = n], the bounds [0] and [1] on
    each of the [n] variables, and two objectives. *)
Definition cxl (n : nat) : seq R := nseq n 0.
Definition cxu (n : nat) : seq R := nseq n 1.
Definition cn_var (n : nat) : nat := n.
Definition cn_obj (n : nat) : nat := 2.
Definition cevaluate (n : nat) (r : seq R) : seq R := [:: head 0 r; 1 - head 0 r].

Lemma crbf_Ok (gamma : R) (X : mat R) : (0 < size (rows X))%N -> (0 < ncols X)%N ->
  exists K, crbf gamma X = Ok K /\ size (rows K) = size (rows X) /\ ncols K = size (rows X).
Proof.
rewrite /crbf !lt0n => /negbTE -> /negbTE -> /=.
by exists (crbf_mat X); rewrite /= size_nseq.
Qed.

Lemma cinv_shape (M M' : mat R) : cinv M = Ok M' ->
  size (rows M') = size (rows M) /\ ncols M' = ncols M.
Proof.
rewrite /cinv; case: (gauss_jordan_inv M) => [rs|] //.
by case: ifP => // /and4P[/eqP cM _ /eqP srs _] [<-] /=.
Qed.

Lemma cinv_exn (M : mat R) (e : exn) : cinv M = Exn e -> e = LinAlgError.
Proof.
rewrite /cinv; case: (gauss_jordan_inv M) => [rs|]; last by case.
by case: ifP => _ // [<-].
Qed.

Lemma ceigh_shape (M : mat R) (w : seq R) (V : mat R) : ceigh M = Ok (w, V) ->
  size w = size (rows M) /\ size (rows V) = size (rows M) /\
  all (fun r => size r == size (rows M)) (rows V).
Proof.
rewrite /ceigh; case: ifP => // _ [<- <-] /=.
rewrite size_nseq size_map size_iota; split=> //; split=> //.
by apply/allP => r /mapP[i _ ->]; rewrite size_map size_iota.
Qed.

Lemma ceigh_exn (M : mat R) (e : exn) : ceigh M = Exn e -> e = LinAlgError.
Proof. by rewrite /ceigh; case: ifP => _ // [<-]. Qed.

Lemma cfront_spec (F : mat R) : (0 < size (rows F))%N ->
  (0 < size (cfront F))%N /\ all (fun i => i < size (rows F))%N (cfront F).
Proof. by rewrite /cfront; case: (rows F). Qed.

End Concrete.

(** ** The driver loop (lines 224-232 and 254-320)

    [num_changes] is set and never read again; the loop runs over
    [enumerate(time_steps)]. The body of one iteration (problem, optimizer,
    metrics, [save_elite_solutions], for [idx == 0] or not) is [env_step
    idx t], which returns the new state and [res.F]; the loop appends
    [res.F] to [fronts_this_run] after each iteration. *)

Definition frequency_of_change : nat := 10.
Definition severity : nat := 10.
Definition num_changes : nat := 9.

(** [range(start, stop, step)] for [0 < step] and [start <= stop]. *)
Definition py_range (start stop step : nat) : seq nat :=
  [seq start + k * step | k <- iota 0 ((stop - start + step.-1) %/ step)].

(** [np.floor(i / frequency_of_change) / severity], [i] a non-negative int. *)
Definition time_steps : seq rat :=
  [seq ((i %/ frequency_of_change)%:R / severity%:R)%R | i <- py_range 0 201 10].

Section Driver.
Variables (S Front : Type).
Variable env_step : nat -> rat -> S -> except (S * Front).

Definition loop_body (acc : S * seq Front) (it : nat * rat) : except (S * seq Front) :=
  let: (st, fronts_this_run) := acc in
  let: (idx, t_unit) := it in
  let t := t_unit in
  let* '(st', res_F) := env_step idx t st in
  Ok (st', rcons fronts_this_run res_F).

(** [for idx, t_unit in enumerate(time_steps): ...] *)
Definition run (st : S) : except (S * seq Front) :=
  foldM loop_body (st, [::]) (zip (iota 0 (size time_steps)) time_steps).

Lemma foldM_loop_body_size (acc acc' : S * seq Front) (its : seq (nat * rat)) :
  foldM loop_body acc its = Ok acc' -> size acc'.2 = size acc.2 + size its.
Proof.
elim: its acc => [|[idx t] its IH] [st fr] /=; first by move=> [<-]; rewrite addn0.
case: (env_step idx t st) => [[st' F]|e] //= /IH ->.
by rewrite size_rcons addSnnS.
Qed.

End Driver.

Lemma size_time_steps : size time_steps = 21.
Proof. by []. Qed.

(** ** compute_sp (lines 41-60)

    [cdist(F, F)] is the matrix of Euclidean distances between the rows of
    [F]; [np.fill_diagonal(distances, np.inf)] puts [Inf true] on its
    diagonal, and [np.min(distances, axis=1)] takes each row's minimum in
    the float order with infinities. Exact reals have no [nan], so both
    [np.isnan] tests are false and are left out. *)
Section Spacing.
Variable R : rcfType.
Local Open Scope ring_scope.

(** [scipy.spatial.distance.euclidean] on two rows of one array. *)
Definition euclid (u v : seq R) : R :=
  Num.sqrt (rsum [seq (x.1 - x.2) ^+ 2 | x <- zip u v]).

(** [cdist(F, F)]. *)
Definition cdist_self (F : mat R) : seq (seq R) :=
  [seq [seq euclid u v | v <- rows F] | u <- rows F].

(** [np.fill_diagonal(distances, np.inf)] on a square array. *)
Definition fill_diagonal_inf (D : seq (seq R)) : seq (seq (fext R)) :=
  [seq [seq if i == j then Inf R true else Fin (nth 0 (nth [::] D i) j)
       | j <- iota 0 (size (nth [::] D i))] | i <- iota 0 (size D)].

(** [np.minimum] of two floats. *)
Definition fext_min (x y : fext R) : fext R := if fext_le x y then x else y.

(** [np.min(A, axis=1)] of an array of [m] columns: a reduction over an
    axis of length 0 (or a row without entries) has no identity. *)
Definition np_min_axis1 (m : nat) (A : seq (seq (fext R))) : except (seq (fext R)) :=
  if m == 0%N then Exn (ValueError ZeroSizeReduction) else
  mapM (fun r => match r with
                 | x :: xs => Ok (foldl fext_min x xs)
                 | [::] => Exn (ValueError ZeroSizeReduction)
                 end) A.

Definition is_inf (d : fext R) : bool := if d is Inf _ then true else false.
Definition fin_val (d : fext R) : R := if d is Fin x then x else 0.

Definition compute_sp (F : mat R) : except R :=
  if (size (rows F) < 2)%N then Ok 0 else
  let distances := fill_diagonal_inf (cdist_self F) in
  let* D := np_min_axis1 (size (rows F)) distances in
  if has is_inf D then Ok 0 else
  let Dv := map fin_val D in
  let mean_D := rsum Dv / (size Dv)%:R in
  Ok (Num.sqrt (rsum [seq (d - mean_D) ^+ 2 | d <- Dv] / (size Dv - 1)%:R)).

End Spacing.
Section SpacingFacts.
Variable R : rcfType.
Local Open Scope ring_scope.
Implicit Types (F : mat R) (s : seq R).

Lemma rsum_big s : rsum s = \sum_(x <- s) x.
Proof. by elim: s => [|x s IH]; rewrite ?big_nil ?big_cons //= IH. Qed.

Definition fin_opt (d : fext R) : option R := if d is Fin x then Some x else None.
Definition not_ninf (d : fext R) : bool := if d is Inf false then false else true.

Definition fext_min_seq (s : seq R) : fext R :=
  if s is a :: r then Fin (foldl Num.min a r) else Inf R true.

Lemma min_if (a b : R) : Num.min a b = if a <= b then a else b.
Proof.
case: ifP => ab; first by apply/min_idPl.
by apply/min_idPr; rewrite ltW // ltNge ab.
Qed.

(** Without [-inf], the running [np.minimum] is [+inf] when every entry is
    [+inf], and otherwise the least finite entry. *)
Lemma foldl_fext_min (x : fext R) (xs : seq (fext R)) :
  all not_ninf (x :: xs) ->
  foldl (@fext_min R) x xs = fext_min_seq (pmap fin_opt (x :: xs)).
Proof.
elim: xs x => [|y xs IH] x /=.
  by case: x => [a|[]].
move=> /and3P[nx ny nxs].
have nm : all not_ninf (fext_min x y :: xs).
  by rewrite /= nxs andbT /fext_min; case: ifP.
rewrite IH //; clear nm.
case: x nx => [a|[]] // _; case: y ny => [b|[]] // _;
  rewrite /fext_min /=; try case: ifP => ab;
  case: (pmap fin_opt xs) => [|c r] //=; rewrite ?min_if ?ab //.
Qed.

Lemma pmap_fill (P : pred nat) (f : nat -> R) (l : seq nat) :
  pmap fin_opt [seq if P j then Inf R true else Fin (f j) | j <- l] =
  [seq f j | j <- l & ~~ P j].
Proof. by elim: l => [|j l IH] //=; case: (P j) => /=; rewrite IH. Qed.

Lemma mapM_map_Ok (A B C : Type) (f : A -> except B) (h : C -> A) (g : C -> B)
    (l : seq C) :
  (forall x, List.In x l -> f (h x) = Ok (g x)) -> mapM f (map h l) = Ok (map g l).
Proof.
elim: l => [|x l IH] //= H.
rewrite (H x (or_introl erefl)) /= IH //.
by move=> y Hy; apply: H; right.
Qed.

Lemma foldl_min_mem (a : R) (r : seq R) : foldl Num.min a r \in a :: r.
Proof.
elim: r a => [|b r IH] a /=; first by rewrite mem_seq1.
have := IH (Num.min a b); rewrite !inE min_if.
by case: ifP => _ /orP[->|->]; rewrite ?orbT.
Qed.

Lemma foldl_min_lb (a : R) (r : seq R) y : y \in a :: r -> foldl Num.min a r <= y.
Proof.
elim: r a => [|b r IH] a /=; first by rewrite mem_seq1 => /eqP ->.
rewrite !inE => /or3P[/eqP->|/eqP->|yr].
- by apply: le_trans (foldl_min_le _ _) _; rewrite ge_min lexx.
- by apply: le_trans (foldl_min_le _ _) _; rewrite ge_min lexx orbT.
- by apply: IH; rewrite inE yr orbT.
Qed.

(** The distances from point [i] to the other points. *)
Definition nn_row F (i : nat) : seq R :=
  [seq euclid (nth [::] (rows F) i) (nth [::] (rows F) j)
  | j <- iota 0 (size (rows F)) & j != i].

Lemma fill_cdist F :
  fill_diagonal_inf (cdist_self F) =
  [seq [seq if i == j then Inf R true
            else Fin (euclid (nth [::] (rows F) i) (nth [::] (rows F) j))
       | j <- iota 0 (size (rows F))] | i <- iota 0 (size (rows F))].
Proof.
rewrite /fill_diagonal_inf /cdist_self size_map; apply/eq_in_map => i.
rewrite mem_iota add0n => /andP[_ ilt].
rewrite (nth_map [::]) // size_map; apply/eq_in_map => j.
rewrite mem_iota add0n => /andP[_ jlt].
by rewrite (nth_map [::]).
Qed.

Lemma np_min_axis1_cdist F : (0 < size (rows F))%N ->
  np_min_axis1 (size (rows F)) (fill_diagonal_inf (cdist_self F)) =
  Ok [seq fext_min_seq (nn_row F i) | i <- iota 0 (size (rows F))].
Proof.
rewrite lt0n => /negbTE n0.
rewrite fill_cdist /np_min_axis1 n0; apply: mapM_map_Ok => i.
case En: (size (rows F)) => [|n] // _.
rewrite /= foldl_fext_min.
  by rewrite /= all_map; apply/andP; split; [case: ifP | apply/allP => j _ /=; case: ifP].
have -> : nn_row F i = pmap fin_opt [seq if i == j then Inf R true
    else Fin (euclid (nth [::] (rows F) i) (nth [::] (rows F) j)) | j <- iota 0 n.+1].
  by rewrite pmap_fill /nn_row En; congr map; apply: eq_filter => j; rewrite eq_sym.
by [].
Qed.

Lemma nn_row_size F i : (2 <= size (rows F))%N -> (i < size (rows F))%N ->
  nn_row F i != [::].
Proof.
move=> n2 ilt; rewrite /nn_row -size_eq0 size_map size_filter.
rewrite -lt0n -has_count; apply/hasP.
case: i ilt => [|i] ilt; first by exists 1%N; rewrite ?mem_iota ?add0n.
by exists 0%N; rewrite ?mem_iota ?add0n //; apply: leq_ltn_trans ilt.
Qed.

End SpacingFacts.
Section SpacingFacts2.
Variable R : rcfType.
Local Open Scope ring_scope.
Implicit Types (F : mat R) (s : seq R).

Lemma fext_min_seq_Fin s : s != [::] ->
  fext_min_seq s = Fin (foldl Num.min (head 0 s) (behead s)).
Proof. by case: s. Qed.

Definition nn_dist F (i : nat) : R :=
  foldl Num.min (head 0 (nn_row F i)) (behead (nn_row F i)).

Lemma np_min_axis1_nn F : (2 <= size (rows F))%N ->
  np_min_axis1 (size (rows F)) (fill_diagonal_inf (cdist_self F)) =
  Ok [seq Fin (nn_dist F i) | i <- iota 0 (size (rows F))].
Proof.
move=> n2; have n0 : (0 < size (rows F))%N by case: (size (rows F)) n2.
rewrite (np_min_axis1_cdist n0); congr Ok; apply/eq_in_map => i.
rewrite mem_iota add0n => /andP[_ ilt].
by rewrite fext_min_seq_Fin // nn_row_size.
Qed.

Lemma nn_dist_spec F i : (2 <= size (rows F))%N -> (i < size (rows F))%N ->
  (exists j, (j < size (rows F))%N /\ j != i /\
     nn_dist F i = euclid (nth [::] (rows F) i) (nth [::] (rows F) j)) /\
  (forall j, (j < size (rows F))%N -> j != i ->
     nn_dist F i <= euclid (nth [::] (rows F) i) (nth [::] (rows F) j)).
Proof.
move=> n2 ilt; have ne := nn_row_size n2 ilt.
have Eh : nn_row F i = head 0 (nn_row F i) :: behead (nn_row F i).
  by case: (nn_row F i) ne.
split.
  have := foldl_min_mem (head 0 (nn_row F i)) (behead (nn_row F i)).
  rewrite -Eh /nn_row => /mapP[j]; rewrite mem_filter mem_iota add0n.
  by move=> /andP[ji /andP[_ jlt]] E; exists j; rewrite /nn_dist /nn_row.
move=> j jlt ji; rewrite /nn_dist; apply: foldl_min_lb; rewrite -Eh /nn_row.
by apply: map_f; rewrite mem_filter ji mem_iota add0n.
Qed.

End SpacingFacts2.
Section MetricsFacts.
Variable R : rcfType.
Local Open Scope ring_scope.

Lemma py_get_oob (T : Type) (s : seq T) (i : nat) :
  (size s <= i)%N -> py_get s i = Exn IndexError.
Proof. by move=> le; rewrite /py_get drop_oversize. Qed.

Lemma mapM_cat (A B : Type) (f : A -> except B) (a b : seq A) :
  mapM f (a ++ b) = let* x := mapM f a in let* y := mapM f b in Ok (x ++ y).
Proof.
elim: a => [|x a IH] /=; first by case: (mapM f b).
case: (f x) => //= y; rewrite IH.
by case: (mapM f a) => //= xs; case: (mapM f b).
Qed.

(** A loop over [range(m)] whose body indexes an array of length [nT]
    stops with [IndexError] at the first index out of range. *)
Lemma mapM_iota_index (B : Type) (f : nat -> except B) (g : nat -> B) (m nT : nat) :
  (forall k, (k < m)%N -> f k = if (k < nT)%N then Ok (g k) else Exn IndexError) ->
  mapM f (iota 0 m) = if (nT < m)%N then Exn IndexError else Ok (map g (iota 0 m)).
Proof.
elim: m => [|m IH] H; first by [].
rewrite -[in iota _ _]addn1 iotaD add0n mapM_cat IH; first by move=> k km; apply: H; rewrite ltnS ltnW.
case: ltnP => [nm|mn] /=; first by rewrite ltnS (ltnW nm).
rewrite /= H ?ltnS //; case: ltnP => [mT|Tm] //=.
by rewrite map_cat.
Qed.

Lemma np_min_axis0_Ok (A : mat R) : rows A != [::] ->
  exists mn, np_min_axis0 A = Ok mn /\ size mn = ncols A.
Proof.
by rewrite /np_min_axis0; case: (rows A) => // r rs _; eexists; split; first reflexivity; by rewrite size_map size_iota.
Qed.

Lemma np_max_axis0_Ok (A : mat R) : rows A != [::] ->
  exists mx, np_max_axis0 A = Ok mx /\ size mx = ncols A.
Proof.
by rewrite /np_max_axis0; case: (rows A) => // r rs _; eexists; split; first reflexivity; by rewrite size_map size_iota.
Qed.

End MetricsFacts.

Section CrowdingMore.
Variable R : realFieldType.
Variable argsort : forall T : Type, rel T -> seq T -> seq nat.
Hypothesis argsort_perm :
  forall (T : Type) (le : rel T) (s : seq T), perm_eq (argsort le s) (iota 0 (size s)).
Hypothesis argsort_sorted :
  forall (T : Type) (le : rel T) (x0 : T) (s : seq T),
    total le -> sorted (fun i j => le (nth x0 s i) (nth x0 s j)) (argsort le s).
Local Open Scope ring_scope.

(** The contribution of an objective to a point that is not first or last
    in its sort order is never negative. *)
Lemma crowd_contrib_ge0 (F : mat R) (m j : nat) :
  (j < size (rows F))%N -> ~~ crowd_extreme argsort F m j ->
  0 <= crowd_contrib argsort F m j.
Proof.
move=> jn; rewrite /crowd_extreme /crowd_contrib => /norP[jh jl].
set si := crowd_order argsort F m.
have ssi : size si = size (rows F) by exact: size_crowd_order.
have jsi : j \in si by rewrite mem_argsort ?size_column.
set p := index j si.
have pn : (p < size si)%N by rewrite index_mem.
have Ej : nth 0%N si p = j := nth_index 0%N jsi.
have p0 : (0 < p)%N.
  rewrite lt0n; apply/eqP => p0; move: jh; rewrite -Ej p0 nth0 eqxx //.
have pl : (p.+1 < size si)%N.
  rewrite ltn_neqAle pn andbT; apply/eqP => pl; move: jl.
  by rewrite -Ej -nth_last -pl eqxx.
have range0 : 0 <= crowd_max argsort F m - crowd_min argsort F m.
  by rewrite subr_ge0; have /andP[a b] := crowd_min_max argsort_perm argsort_sorted m jn;
     apply: le_trans b.
case: ifP => // r0; apply: divr_ge0 => //; rewrite subr_ge0.
have hom := sorted_leq_nth (fun i k l => @le_trans _ R (entry F i m) (entry F k m) (entry F l m))
              (fun i => lexx (entry F i m)) 0%N (crowd_order_sorted argsort_perm argsort_sorted F m).
have h1 : (p.-1 < size si)%N by rewrite (leq_ltn_trans (leq_pred p)).
have h3 : (p.-1 <= p.+1)%N by rewrite (leq_trans (leq_pred p)).
by apply: hom; rewrite ?inE.
Qed.

End CrowdingMore.
Section SaveEliteMore.
Variables (Rng : Type) (permutation : Rng -> nat -> seq nat * Rng) (T : eqType).
Hypothesis permutation_spec : forall g n, perm_eq (permutation g n).1 (iota 0 n).

(** Gathering the first [k] entries of a permutation of the indices keeps a
    sub-multiset of the list: the entries at the other indices are the rest. *)
Lemma gather_take_perm (x0 : T) (s : seq T) (p : seq nat) (k : nat) :
  perm_eq p (iota 0 (size s)) ->
  perm_eq s ([seq nth x0 s i | i <- take k p] ++ [seq nth x0 s i | i <- drop k p]).
Proof.
move=> pp; rewrite -map_cat cat_take_drop -{1}(mkseq_nth x0 s) /mkseq.
by rewrite perm_map // perm_sym.
Qed.

(** The capped new population of the first draw. *)
Lemma save_elite_cap (x0 : T) (var : seq T) (max_per_problem : nat) (g : Rng) :
  let ce := if (max_per_problem < size var)%N then
      ([seq nth x0 var i | i <- take max_per_problem (permutation g (size var)).1],
       (permutation g (size var)).2)
    else (var, g) in
  size ce.1 = minn (size var) max_per_problem /\ exists r, perm_eq var (ce.1 ++ r).
Proof.
case: ltnP => [lt|le] /=.
  split.
    rewrite size_map size_take (perm_size (permutation_spec _ _)) size_iota lt.
    by [].
  by eexists; apply: gather_take_perm; exact: permutation_spec.
split=> //.
by exists [::]; rewrite cats0.
Qed.

End SaveEliteMore.

(** ** ClipRepair._do (lines 83-85)

    [np.clip(X, problem.xl, problem.xu)] is
    [np.minimum(np.maximum(X, xl), xu)], computed after broadcasting the
    three shapes: the rows of [X] have [ncols X] entries and the bounds are
    1-D. Two trailing dimensions broadcast when they are equal or one of
    them is 1; otherwise numpy raises [ValueError]. Exact reals have no
    [nan]. *)
Section Clip.
Variable R : realFieldType.
Local Open Scope ring_scope.

(** The broadcast length of 1-D extents: the extent other than 1, if all
    the extents other than 1 agree. *)
Definition bcast_dim (dims : seq nat) : option nat :=
  let w := head 1%N [seq d <- dims | d != 1%N] in
  if all (fun d => (d == w) || (d == 1%N)) dims then Some w else None.

(** A 1-D extent broadcast to length [w]. *)
Definition bcast_to (v : seq R) (w : nat) : seq R :=
  if size v == w then v else nseq w (head 0 v).

Definition np_clip (X : mat R) (a_min a_max : seq R) : except (mat R) :=
  match bcast_dim [:: ncols X; size a_min; size a_max] with
  | None => Exn (ValueError OperandsNotBroadcast)
  | Some w =>
      let lo := bcast_to a_min w in
      let hi := bcast_to a_max w in
      Ok (Mat w [seq [seq Num.min (Num.max p.1 p.2.1) p.2.2
                     | p <- zip (bcast_to r w) (zip lo hi)] | r <- rows X])
  end.

(** [ClipRepair()._do(problem, X)] for a problem with bounds [xl], [xu]. *)
Definition ClipRepair_do (xl xu : seq R) (X : mat R) : except (mat R) :=
  np_clip X xl xu.

End Clip.
Section ClipFacts.
Variable R : realFieldType.
Local Open Scope ring_scope.

Lemma bcast_dim_same (c : nat) : bcast_dim [:: c; c; c] = Some c.
Proof. rewrite /bcast_dim /=; case: (eqVneq c 1%N) => [->|nc] //=; by rewrite eqxx. Qed.

Lemma bcast_dim_idem (a b c w : nat) :
  bcast_dim [:: a; b; c] = Some w -> bcast_dim [:: w; b; c] = Some w.
Proof.
rewrite /bcast_dim; case: ifP => // Hall [Ew]; move: Hall; rewrite Ew /=.
case/and4P=> _ hb hc _; case: (eqVneq w 1%N) => [w1|nw].
  move: hb hc; rewrite w1 !orbb => /eqP -> /eqP ->; by [].
by rewrite /= eqxx hb hc.
Qed.

Lemma size_bcast_to (v : seq R) (w : nat) : size (bcast_to v w) = w.
Proof. by rewrite /bcast_to; case: eqP => // _; rewrite size_nseq. Qed.

Lemma bcast_to_id (v : seq R) : bcast_to v (size v) = v.
Proof. by rewrite /bcast_to eqxx. Qed.

Lemma bcast_to_eq (v : seq R) (w : nat) : size v = w -> bcast_to v w = v.
Proof. by move=> <-; exact: bcast_to_id. Qed.

Definition clip_row (r lo hi : seq R) : seq R :=
  [seq Num.min (Num.max p.1 p.2.1) p.2.2 | p <- zip r (zip lo hi)].

Lemma size_clip_row (r lo hi : seq R) :
  size (clip_row r lo hi) = minn (size r) (minn (size lo) (size hi)).
Proof. by rewrite size_map !size_zip. Qed.

Lemma nth_clip_row (r lo hi : seq R) (k : nat) :
  (k < size r)%N -> (k < size lo)%N -> (k < size hi)%N ->
  nth 0 (clip_row r lo hi) k =
  Num.min (Num.max (nth 0 r k) (nth 0 lo k)) (nth 0 hi k).
Proof.
move=> kr kl kh.
rewrite (nth_map (0, (0, 0))); first by rewrite !size_zip !leq_min kr kl kh.
by rewrite !nth_zip_cond /= ?size_zip ?leq_min ?kr ?kl ?kh.
Qed.

Lemma clip1_idem (x l h : R) :
  Num.min (Num.max (Num.min (Num.max x l) h) l) h = Num.min (Num.max x l) h.
Proof.
case: (lerP l h) => lh.
  have ly : l <= Num.min (Num.max x l) h by rewrite le_min le_max lexx orbT lh.
  by rewrite (max_idPl ly); apply/min_idPl; rewrite ge_min lexx orbT.
have -> : Num.min (Num.max x l) h = h.
  by apply/min_idPr; rewrite le_max (ltW lh) orbT.
by rewrite (max_idPr (ltW lh)); apply/min_idPr; exact: ltW.
Qed.

Lemma clip1_bounds (x l h : R) : l <= h ->
  l <= Num.min (Num.max x l) h <= h.
Proof. by move=> lh; rewrite le_min le_max lexx orbT lh ge_min lexx orbT. Qed.

Lemma clip1_id (x l h : R) : l <= x <= h -> Num.min (Num.max x l) h = x.
Proof.
by move=> /andP[lx xh]; rewrite (max_idPl lx); apply/min_idPl.
Qed.

Lemma clip_row_idem (r lo hi : seq R) (w : nat) :
  size r = w -> size lo = w -> size hi = w ->
  clip_row (clip_row r lo hi) lo hi = clip_row r lo hi.
Proof.
move=> sr sl sh; have sc : size (clip_row r lo hi) = w.
  by rewrite size_clip_row sr sl sh !minnn.
apply: (@eq_from_nth _ 0); first by rewrite size_clip_row sc sl sh !minnn.
move=> k; rewrite size_clip_row sc sl sh !minnn => kw.
rewrite nth_clip_row ?sc ?sl ?sh // nth_clip_row ?sr ?sl ?sh //.
exact: clip1_idem.
Qed.

End ClipFacts.
Section SubsetMore.
Variable R : realFieldType.
Variable argsort : forall T : Type, rel T -> seq T -> seq nat.
Hypothesis argsort_perm :
  forall (T : Type) (le : rel T) (s : seq T), perm_eq (argsort le s) (iota 0 (size s)).
Hypothesis argsort_sorted :
  forall (T : Type) (le : rel T) (x0 : T) (s : seq T),
    total le -> sorted (fun i j => le (nth x0 s i) (nth x0 s j)) (argsort le s).
Variable evaluate : seq R -> seq R.
Variable n_obj : nat.

(** The objective row of [r] as written into [F_saved[i]]: a row of length
    1 is broadcast to the width [n_obj]. *)
Definition assigned_row (r : seq R) : seq R :=
  if size (evaluate r) == n_obj then evaluate r
  else nseq n_obj (head 0%R (evaluate r)).

(** The sum [np.sum(F_saved, axis=1)] ranks the row by. *)
Definition assigned_sum (r : seq R) : R :=
  if size (evaluate r) == n_obj then objsum evaluate r
  else (head 0%R (evaluate r) *+ n_obj)%R.

Definition broadcastable (r : seq R) : bool :=
  (size (evaluate r) == n_obj) || (size (evaluate r) == 1).

Lemma sum_nseq (n : nat) (c : R) : (\sum_(x <- nseq n c) x)%R = (c *+ n)%R.
Proof. by elim: n => [|n IH]; rewrite ?big_nil ?mulr0n //= big_cons IH mulrS. Qed.

Lemma sum_assigned_row (r : seq R) :
  (\sum_(x <- assigned_row r) x)%R = assigned_sum r.
Proof. by rewrite /assigned_row /assigned_sum; case: eqP => // _; rewrite sum_nseq. Qed.

Lemma mapM_row_assign_bcast (saved : seq (seq R)) :
  all broadcastable saved ->
  mapM (fun ind => row_assign n_obj (evaluate ind)) saved =
    Ok [seq assigned_row r | r <- saved].
Proof.
elim: saved => [|r saved IH] //= /andP[br /IH ->].
rewrite /row_assign /assigned_row; move: br; rewrite /broadcastable.
by case: eqP => //= _ ->.
Qed.

Lemma mapM_row_assign_fail (saved : seq (seq R)) :
  ~~ all broadcastable saved ->
  mapM (fun ind => row_assign n_obj (evaluate ind)) saved =
    Exn (ValueError CouldNotBroadcastInto).
Proof.
elim: saved => [|r saved IH] //=; rewrite negb_and => H.
rewrite /row_assign; case: (boolP (broadcastable r)) H => br /= H.
  have -> : mapM (fun ind => row_assign n_obj (evaluate ind)) saved =
            Exn (ValueError CouldNotBroadcastInto) by apply: IH.
  by move: br; rewrite /broadcastable /row_assign; case: eqP => //= _ ->.
by move: br; rewrite /broadcastable negb_or => /andP[/negbTE -> /negbTE ->].
Qed.

End SubsetMore.

Section TCAMore.
Variable R : realFieldType.
Local Open Scope ring_scope.

(** The weight of sample [i] in the MMD matrix: [1/ns] for a source row,
    [-1/nt] for a target row. *)
Definition tca_e (ns nt i : nat) : R :=
  if (i < ns)%N then 1 / ns%:R else -1 / nt%:R.

Lemma rsum_iota_const (f : nat -> R) (c : R) (m k : nat) :
  (forall j, (m <= j < m + k)%N -> f j = c) ->
  rsum [seq f j | j <- iota m k] = k%:R * c.
Proof.
elim: k m => [|k IH] m Hf /=; first by rewrite mul0r.
have H1 : f m = c by apply: Hf; rewrite leqnn addnS ltnS leq_addr.
have H2 : rsum [seq f j | j <- iota m.+1 k] = k%:R * c.
  by apply: IH => j /andP[mj jk]; apply: Hf; rewrite (ltnW mj) addnS -addSn.
by rewrite H1 H2 -[k.+1]addn1 natrD mulrDl mul1r addrC.
Qed.

Lemma rsum_cat (s1 s2 : seq R) : rsum (s1 ++ s2) = rsum s1 + rsum s2.
Proof. by elim: s1 => [|x s1 IH] /=; rewrite ?add0r // IH addrA. Qed.

End TCAMore.

(** ** Problem1 (lines 89-110)

    [np.sin], [np.cos], [np.pi] and the float power [**] are kept as
    variables. *)
Module Problem1.
Section Problem1.
Variable R : realFieldType.
Variables sin cos : R -> R.
Variable pi : R.
Variable rpow : R -> R -> R.
Local Open Scope ring_scope.

Record problem := Problem {
  t : R; a : R; b : R; c : R; H : R;
  n_var : nat; xl : seq R; xu : seq R; n_obj : nat }.

(** [Problem1(n_var, t)] *)
Definition init (n_var : nat) (t : R) : problem :=
  let a := sin (1 / 2%:R * pi * t) in
  let b := 1 + `|cos (1 / 2%:R * pi * t)| in
  let c := Num.max `|a| (a + b) in
  let H := 3%:R / 2%:R + a in
  let xl := nseq n_var (-2%:R * 1) in
  let xu := nseq n_var (2%:R * 1) in
  Problem t a b c H n_var xl xu 2.

(** [g] of line 104 on one row [r] of an array with [n] columns. *)
Definition g_row (P : problem) (n : nat) (r : seq R) : R :=
  1 + rsum [seq (nth 0 r k - a P * nth 0 r 0 ^+ 2 / ((k.+1)%:R * c P ^+ 2)) ^+ 2
           | k <- iota 1 (n - 1)].

(** [_evaluate(X, out)]: [out["F"]]. [X[:, 0]] raises [IndexError] when
    [X] has no column. *)
Definition evaluate (P : problem) (X : mat R) : except (mat R) :=
  let n := ncols X in
  if n == 0%N then Exn IndexError
  else Ok (Mat 2 [seq [:: g_row P n r * rpow `|nth 0 r 0 - a P| (H P);
                         g_row P n r * rpow `|nth 0 r 0 - a P - b P| (H P)]
                 | r <- rows X]).

End Problem1.
End Problem1.

Section Problem1Facts.
Variable R : realFieldType.
Variables sin cos : R -> R.
Variable pi : R.
Local Open Scope ring_scope.

Lemma rsum_sqr_ge0 (s : seq R) : 0 <= rsum [seq x ^+ 2 | x <- s].
Proof. by elim: s => [|y s IH] //=; rewrite addr_ge0 ?sqr_ge0. Qed.

Lemma rsum_sqr_eq0 (s : seq R) :
  (rsum [seq x ^+ 2 | x <- s] == 0) = all (fun x => x == 0) s.
Proof.
elim: s => [|y s IH]; first by rewrite /= eqxx.
have -> : rsum [seq x ^+ 2 | x <- y :: s] = y ^+ 2 + rsum [seq x ^+ 2 | x <- s] by [].
by rewrite paddr_eq0 ?sqr_ge0 ?rsum_sqr_ge0 // sqrf_eq0 IH.
Qed.

Lemma problem1_g_row_sqr (P : Problem1.problem R) (n : nat) (r : seq R) :
  Problem1.g_row P n r =
  1 + rsum [seq x ^+ 2 | x <- [seq nth 0 r k - Problem1.a P * nth 0 r 0 ^+ 2 /
                                     ((k.+1)%:R * Problem1.c P ^+ 2)
                              | k <- iota 1 (n - 1)]].
Proof. by rewrite /Problem1.g_row -map_comp. Qed.

Lemma g_row_pareto (P : Problem1.problem R) (n : nat) (r : seq R) :
  1 <= Problem1.g_row P n r /\
  (Problem1.g_row P n r = 1 <->
   forall k, (1 <= k < n)%N ->
     nth 0 r k = Problem1.a P * nth 0 r 0 ^+ 2 / ((k.+1)%:R * Problem1.c P ^+ 2)).
Proof.
rewrite problem1_g_row_sqr; set S := rsum _.
have S0 : 0 <= S by exact: rsum_sqr_ge0.
split; first by rewrite lerDl.
have -> : (1 + S = 1) <-> (S == 0).
  by split=> [h|/eqP ->]; [apply/eqP; lra | rewrite addr0].
rewrite /S rsum_sqr_eq0 all_map; clear S0 S; split.
  move=> /allP h k /andP[k1 kn]; apply/eqP; rewrite -subr_eq0; apply: (h k).
  rewrite mem_iota k1 /=; case: n kn {h} => [|n] kn //.
  by rewrite subn1 /= add1n.
move=> h; apply/allP => k; rewrite mem_iota => /andP[k1 kn] /=.
rewrite subr_eq0 h // k1 /=; case: n kn {h} => [|n] kn; first by case: k k1 kn.
by move: kn; rewrite subSS subn0 add1n.
Qed.

End Problem1Facts.
(** ** TCA._kernel (lines 139-145) and TCA.fit_transform for any kernel type

    Besides the numpy exceptions, [_kernel] and its caller can raise
    Python's [AttributeError] and [TypeError], and [np.dot] a [ValueError]
    on non-aligned shapes. *)
Inductive pyexn :=
  | NumpyError of exn
  | AttributeError      (* 'NoneType' object has no attribute 'T' *)
  | TypeError           (* unsupported operand type(s) for +: 'NoneType' and 'float' *)
  | DotNotAligned.      (* ValueError: shapes ... not aligned *)

Inductive result (A : Type) := ROk of A | RErr of pyexn.
Arguments ROk {A} _.
Arguments RErr {A} _.

Definition rbind (A B : Type) (c : result A) (k : A -> result B) : result B :=
  match c with ROk a => k a | RErr e => RErr e end.

Notation "'let+' x ':=' c 'in' k" := (rbind c (fun x => k))
  (at level 200, x name, c at level 100, k at level 200).

Definition rlift (A : Type) (c : except A) : result A :=
  match c with Ok a => ROk a | Exn e => RErr (NumpyError e) end.

Open Scope string_scope.

Section TCAKernel.
Variable R : realFieldType.
Variable argsort : forall T : Type, rel T -> seq T -> seq nat.
(** [rbf_kernel(X1, X2, gamma=gamma)] *)
Variable rbf_kernel : R -> mat R -> mat R -> mat R.
Variable inv : mat R -> except (mat R).
Variable eigh : mat R -> except (seq R * mat R).
Local Open Scope ring_scope.

(** [A.T] *)
Definition np_T (A : mat R) : mat R :=
  Mat (size (rows A)) [seq column A j | j <- iota 0 (ncols A)].

(** [self._kernel(X1, X2)]; [None] is the value of a function that falls
    off its end. *)
Definition TCA_kernel (kernel_type : String.string) (gamma : R) (X1 : mat R)
    (X2 : option (mat R)) : result (option (mat R)) :=
  if String.eqb kernel_type "linear" then
    match X2 with
    | None => RErr AttributeError
    | Some X2 =>
        match matmul X1 (np_T X2) with
        | Ok K => ROk (Some K)
        | Exn _ => RErr DotNotAligned
        end
    end
  else if String.eqb kernel_type "rbf" then
    let X2 := if X2 is Some X2 then X2 else X1 in
    ROk (Some (rbf_kernel gamma X1 X2))
  else ROk None.

(** [TCA(dim, kernel_type, lamb, gamma).fit_transform(Xs, Xt)].
    [K + self.lamb * np.eye(ns + nt)] raises [TypeError] when [K] is
    [None]. *)
Definition fit_transform_k (kernel_type : String.string) (dim : nat) (lamb gamma : R)
    (Xs Xt : ndarray R) : result (mat R) :=
  let+ X_all := rlift (vstack [:: Xs; Xt]) in
  let ns := py_len Xs in
  let nt := py_len Xt in
  let+ K := TCA_kernel kernel_type gamma X_all None in
  let+ L := rlift (tca_L R ns nt) in
  let+ h := rlift (py_div 1 (ns + nt)) in
  let+ H := rlift (madd (np_eye R (ns + nt)) (mscale (- h) (np_ones R (ns + nt)))) in
  match K with
  | None => RErr TypeError
  | Some K =>
      rlift (
        let* KI := madd K (mscale lamb (np_eye R (ns + nt))) in
        let* Kinv := inv KI in
        let* Kc := matmul Kinv K in
        let* KcL := matmul Kc L in
        let* KcLKc := matmul KcL Kc in
        let* '(eigvals, eigvecs) := eigh KcLKc in
        let idx := take dim (argsort <=%R [seq - x | x <- eigvals]) in
        let* W := take_cols eigvecs idx in
        let* Z := matmul K W in
        Ok (take_rows Z ns))
  end.

Lemma madd_eye_ones_Ok (n : nat) (h : R) :
  exists H, madd (np_eye R n) (mscale (- h) (np_ones R n)) = Ok H.
Proof. by rewrite /madd /= !size_map size_iota size_nseq !eqxx; eexists. Qed.

End TCAKernel.

Close Scope string_scope.

(* ===================================================================== *)
(** * Claims *)
(* ===================================================================== *)

Section ClaimsSaveElite.
Variables (Rng : Type) (permutation : Rng -> nat -> seq nat * Rng) (T : Type).
Hypothesis permutation_spec : forall g n, perm_eq (permutation g n).1 (iota 0 n).

(** C1: over any sequence of calls of [save_elite_solutions] from the empty
    archive, with any new population at each call, every archive it leaves
    has at most [max_save] rows; when the union of the old archive and the
    capped new population exceeds [max_save], the archive kept is the union
    restricted to the first [max_save] indices of a fresh
    [np.random.permutation] of the union (no priority is consulted), and,
    the permutation being uniform, every index set of size [max_save] is
    kept by as many permutations as any other. *)
Theorem save_elite_archive_capped_uniform :
  (forall (pops : seq (seq T)) (max_save max_per_problem : nat) (g : Rng),
     exists tr g',
       save_elite_trace permutation pops max_save max_per_problem [::] g = Ok (tr, g')
       /\ size tr = size pops /\ all (fun a => size a <= max_save) tr) /\
  (forall (x0 : T) (var : seq T) (max_save : nat) (solutions : seq T)
          (max_per_problem : nat) (g : Rng),
     let ce :=
       if size var > max_per_problem then
         ([seq nth x0 var i | i <- take max_per_problem (permutation g (size var)).1],
          (permutation g (size var)).2)
       else (var, g) in
     let combined := solutions ++ ce.1 in
     size combined > max_save ->
     save_elite_solutions permutation var max_save solutions max_per_problem g =
     Ok ([seq nth x0 combined i | i <- take max_save (permutation ce.2 (size combined)).1],
         (permutation ce.2 (size combined)).2)) /\
  (forall (n k : nat) (S1 S2 : seq nat),
     uniq S1 -> uniq S2 -> size S1 = k -> size S2 = k ->
     all (fun i => i < n) S1 -> all (fun i => i < n) S2 ->
     count (fun p => perm_eq (take k p) S1) (permutations (iota 0 n)) =
     count (fun p => perm_eq (take k p) S2) (permutations (iota 0 n))).
Proof.
split; first by move=> pops ms mpp g; exact: save_elite_trace_bounded.
split; last exact: choice_index_set_uniform.
move=> x0 var ms sol mpp g /=.
have := save_elite_solutions_eq permutation_spec x0 var ms sol mpp g.
by move=> /= -> ->.
Qed.

End ClaimsSaveElite.

Lemma save_elite_archive_capped_uniform_witness :
  exists tr g',
    save_elite_trace (fun (g : unit) n => (iota 0 n, g))
      [:: [:: 1; 2; 3]; [:: 4; 5]; [:: 6]] 3 2 [::] tt = Ok (tr, g')
    /\ size tr = 3 /\ all (fun a => size a <= 3) tr.
Proof.
exact: (proj1 (@save_elite_archive_capped_uniform unit
           (fun (g : unit) n => (iota 0 n, g)) nat (fun g n => perm_refl _))
          [:: [:: 1; 2; 3]; [:: 4; 5]; [:: 6]] 3 2 tt).
Defined.

(** C5: when the new population is within [max_per_problem] and the union
    within [max_save], [save_elite_solutions] draws nothing and the archive
    becomes exactly the old archive followed by the new population; from
    the empty archive, 10 new rows and caps 1000/40 give those 10 rows. *)
Theorem save_elite_union_no_eviction (Rng : Type)
    (permutation : Rng -> nat -> seq nat * Rng) (T : Type) (var : seq T)
    (max_save : nat) (solutions : seq T) (max_per_problem : nat) (g : Rng) :
  size var <= max_per_problem -> size solutions + size var <= max_save ->
  save_elite_solutions permutation var max_save solutions max_per_problem g =
    Ok (solutions ++ var, g) /\
  (forall new : seq T, size new = 10 ->
     save_elite_solutions permutation new 1000 [::] 40 g = Ok (new, g)).
Proof.
move=> Hv Hc; split.
  rewrite /save_elite_solutions ltnNge Hv /= ltnNge size_cat Hc /=.
  by [].
move=> new Hn.
by rewrite /save_elite_solutions Hn /= Hn.
Qed.

Lemma save_elite_union_no_eviction_witness :
  save_elite_solutions (fun (g : unit) n => (iota 0 n, g))
    (iota 1 10) 1000 [::] 40 tt = Ok (iota 1 10, tt).
Proof.
exact: (proj1 (@save_elite_union_no_eviction unit
          (fun (g : unit) n => (iota 0 n, g)) nat
          (iota 1 10) 1000 [::] 40 tt (isT : 10 <= 40) (isT : 0 + 10 <= 1000))).
Defined.

Section ClaimsCrowding.
Variable R : realFieldType.
Variable argsort : forall T : Type, rel T -> seq T -> seq nat.
Hypothesis argsort_perm :
  forall (T : Type) (le : rel T) (s : seq T), perm_eq (argsort le s) (iota 0 (size s)).
Hypothesis argsort_sorted :
  forall (T : Type) (le : rel T) (x0 : T) (s : seq T),
    total le -> sorted (fun i j => le (nth x0 s i) (nth x0 s j)) (argsort le s).

(** C8: on a front with at least one point, [crowding_distance] returns one
    distance per point: a point that comes first or last in the sort order
    of some objective gets [+inf]; every other point gets the sum over the
    objectives of (next value - previous value) / (max - min) in that sort
    order, where the first and last values of the sort order are the least
    and greatest of the column, and an objective whose range is zero
    contributes 0 (no division happens). For the three points with
    objective columns [0; 1; 5] and [5; 1; 0] the result is
    [+inf; 2; +inf]: the endpoints are infinite and the middle point is
    finite and positive. *)
Theorem crowding_distance_extremes_interior :
  (forall F : mat R, 0 < size (rows F) ->
     exists d, crowding_distance argsort F = Ok d /\ size d = size (rows F) /\
       forall j, j < size (rows F) ->
         nth (Fin 0%R) d j =
           if has (fun m => crowd_extreme argsort F m j) (iota 0 (ncols F))
           then Inf R true
           else Fin (\sum_(m <- iota 0 (ncols F)) crowd_contrib argsort F m j)%R) /\
  (forall (F : mat R) (m j : nat), j < size (rows F) ->
     (crowd_min argsort F m <= entry F j m <= crowd_max argsort F m)%R) /\
  (forall (F : mat R) (m j : nat),
     (crowd_max argsort F m - crowd_min argsort F m = 0)%R ->
     crowd_contrib argsort F m j = 0%R) /\
  crowding_distance argsort (front3 R) = Ok [:: Inf R true; Fin 2%R; Inf R true] /\
  (0 < 2 :> R)%R.
Proof.
split; first exact: crowding_distance_spec.
split; first exact: crowd_min_max.
split; first by move=> F m j E; rewrite /crowd_contrib E eqxx.
by split; [exact: crowding_distance_front3 | rewrite ltr0n].
Qed.

End ClaimsCrowding.

Lemma crowding_distance_extremes_interior_witness :
  0 < size (rows (front3 rat)) /\
  exists d, crowding_distance argsort_by_sort (front3 rat) = Ok d /\ size d = 3.
Proof.
split; first by [].
have [d [E [sd _]]] := proj1 (@crowding_distance_extremes_interior rat argsort_by_sort
   argsort_by_sort_perm argsort_by_sort_sorted) (front3 rat) isT.
by exists d.
Defined.

(** C9: [compute_ms] is not bounded by 1. For [F = [[3], [4]]] and
    [true_pf = [[0], [1]]] the ranges [[3, 4]] and [[0, 1]] of the one
    objective are disjoint; the overlap [min(1, 4) - max(0, 3) = -2] is
    negative, its square over the true range [1] is the component 4, and
    [compute_ms] returns [sqrt(4 / 1) = 2 > 1]. *)
Theorem compute_ms_exceeds_one (R : rcfType) :
  np_min_axis0 (ms_F R) = Ok [:: 3%R] /\ np_max_axis0 (ms_F R) = Ok [:: 4%R] /\
  np_min_axis0 (ms_true_pf R) = Ok [:: 0%R] /\ np_max_axis0 (ms_true_pf R) = Ok [:: 1%R] /\
  (1 < 3 :> R)%R /\
  (Num.min 1 4 - Num.max 0 3 = - 2 :> R)%R /\
  (((Num.min 1 4 - Num.max 0 3) / (1 - 0)) ^+ 2 = 4 :> R)%R /\
  compute_ms (ms_F R) (ms_true_pf R) = Ok (Some 2%R) /\ (1 < 2 :> R)%R.
Proof.
split; first by rewrite /np_min_axis0 /=; congr (Ok [:: _]); apply/min_idPl; lra.
split; first by rewrite /np_max_axis0 /=; congr (Ok [:: _]); apply/max_idPr; lra.
split; first by rewrite /np_min_axis0 /=; congr (Ok [:: _]); apply/min_idPl; lra.
split; first by rewrite /np_max_axis0 /=; congr (Ok [:: _]); apply/max_idPr; lra.
have E : (Num.min 1 4 - Num.max 0 3 = - 2 :> R)%R.
  have -> : (Num.min 1 4 = 1 :> R)%R by apply/min_idPl; lra.
  have -> : (Num.max 0 3 = 3 :> R)%R by apply/max_idPr; lra.
  lra.
split; first lra.
split; first exact: E.
split; first by rewrite E subr0 divr1 sqrrN; lra.
by split; [exact: compute_ms_example | lra].
Qed.

Section ClaimsSubset.
Variable R : realFieldType.
Variable argsort : forall T : Type, rel T -> seq T -> seq nat.
Hypothesis argsort_perm :
  forall (T : Type) (le : rel T) (s : seq T), perm_eq (argsort le s) (iota 0 (size s)).
Hypothesis argsort_sorted :
  forall (T : Type) (le : rel T) (x0 : T) (s : seq T),
    total le -> sorted (fun i j => le (nth x0 s i) (nth x0 s j)) (argsort le s).
Variable evaluate : seq R -> seq R.
Variable n_obj : nat.

(** C6: [select_subset] returns the empty array for an empty archive; the
    archive itself, as an array, when it has at most [max_elements] rows;
    and otherwise, when every row evaluates to [n_obj] objectives, exactly
    [max_elements] rows of the archive, which together with the rows left
    out make up the archive as a multiset, and none of which has a larger
    objective sum than any row left out. *)
Theorem select_subset_lowest_sums :
  (forall max_elements : nat,
     select_subset argsort evaluate n_obj [::] max_elements = Ok (Arr1 [::])) /\
  (forall (saved : seq (seq R)) (max_elements : nat),
     0 < size saved -> size saved <= max_elements ->
     select_subset argsort evaluate n_obj saved max_elements = Ok (Arr2 (np_array saved))) /\
  (forall (saved : seq (seq R)) (max_elements : nat),
     max_elements < size saved ->
     all (fun r => size (evaluate r) == n_obj) saved ->
     exists best rest,
       select_subset argsort evaluate n_obj saved max_elements =
         Ok (Arr2 (Mat (ncols (np_array saved)) best)) /\
       size best = max_elements /\ perm_eq saved (best ++ rest) /\
       {in best & rest, forall x y, objsum evaluate x <= objsum evaluate y}%R).
Proof.
split; first by [].
split; first by move=> saved k n0 nk; rewrite /select_subset nk; case: (size saved) n0.
move=> saved k; exact: select_subset_large.
Qed.

End ClaimsSubset.

Lemma select_subset_lowest_sums_witness :
  select_subset argsort_by_sort id 1 [:: [:: 1%R]; [:: 2%R]] 5 =
    Ok (Arr2 (np_array [:: [:: 1%R]; [:: 2%R]] : mat rat)) /\
  exists best rest,
    select_subset argsort_by_sort id 1 [:: [:: 3%R]; [:: 1%R]; [:: 2%R] : seq rat] 2 =
      Ok (Arr2 (Mat 1 best)) /\
    size best = 2 /\ perm_eq [:: [:: 3%R]; [:: 1%R]; [:: 2%R]] (best ++ rest) /\
    {in best & rest, forall x y, objsum id x <= objsum id y}%R.
Proof.
have T := @select_subset_lowest_sums rat argsort_by_sort
  argsort_by_sort_perm argsort_by_sort_sorted id 1.
split; first exact: (proj1 (proj2 T)) [:: [:: 1%R]; [:: 2%R]] 5 isT isT.
exact: (proj2 (proj2 T)) [:: [:: 3%R]; [:: 1%R]; [:: 2%R]] 2 isT isT.
Defined.

Section ClaimsTCA.
Variable R : realFieldType.
Variable argsort : forall T : Type, rel T -> seq T -> seq nat.
Variable rbf_kernel : R -> mat R -> except (mat R).
Variable inv : mat R -> except (mat R).
Variable eigh : mat R -> except (seq R * mat R).
Hypothesis argsort_perm :
  forall (T : Type) (le : rel T) (s : seq T), perm_eq (argsort le s) (iota 0 (size s)).
Hypothesis rbf_Ok : forall g X, 0 < size (rows X) -> 0 < ncols X ->
  exists K, rbf_kernel g X = Ok K /\ size (rows K) = size (rows X) /\ ncols K = size (rows X).
Hypothesis inv_shape : forall M M', inv M = Ok M' ->
  size (rows M') = size (rows M) /\ ncols M' = ncols M.
Hypothesis inv_exn : forall M e, inv M = Exn e -> e = LinAlgError.
Hypothesis eigh_shape : forall M w V, eigh M = Ok (w, V) ->
  size w = size (rows M) /\ size (rows V) = size (rows M) /\
  all (fun r => size r == size (rows M)) (rows V).
Hypothesis eigh_exn : forall M e, eigh M = Exn e -> e = LinAlgError.

(** C7 (amended): for non-empty source and target arrays of one non-zero
    width, with [ns] and [nt] rows, [fit_transform] returns, unless
    [np.linalg] raises [LinAlgError], an array of [ns] rows and
    [min(dim, ns + nt)] columns, whatever the width of its inputs: exactly
    [dim] columns when [ns + nt >= dim]. *)
Theorem fit_transform_rows_cols (dim : nat) (lamb gamma : R) (A B : mat R) :
  ncols A = ncols B -> 0 < ncols A -> 0 < size (rows A) -> 0 < size (rows B) ->
  match fit_transform argsort rbf_kernel inv eigh dim lamb gamma (Arr2 A) (Arr2 B) with
  | Ok Z => size (rows Z) = size (rows A) /\
            ncols Z = minn dim (size (rows A) + size (rows B)) /\
            (dim <= size (rows A) + size (rows B) -> ncols Z = dim)
  | Exn e => e = LinAlgError
  end.
Proof.
move=> AB cA nA nB.
have := fit_transform_shape argsort_perm rbf_Ok inv_shape inv_exn eigh_shape eigh_exn
  dim lamb gamma AB cA nA nB.
case: (fit_transform _ _ _ _ _ _ _ _ _) => [Z [sZ [cZ _]]|e] //.
by split=> //; split=> // h; rewrite cZ; apply/minn_idPl.
Qed.

End ClaimsTCA.


(** C7: one source and one target point, both [0]: the transform returns
    one row of 2 columns, not [target_dim = 10]. *)
Lemma transfer_solutions_two_columns :
  match transfer_solutions argsort_by_sort crbf cinv ceigh
          (Arr2 (Mat 1 [:: [:: 0%R]] : mat rat)) (Arr2 (Mat 1 [:: [:: 0%R]])) with
  | Ok Z => Some (size (rows Z), ncols Z)
  | Exn _ => None
  end = Some (1, 2).
Proof. by vm_compute. Qed.

Lemma fit_transform_rows_cols_witness :
  match fit_transform argsort_by_sort crbf cinv ceigh 10 1%R (2%:R / 5%:R)%R
          (Arr2 (Mat 1 [:: [:: 0%R]] : mat rat)) (Arr2 (Mat 1 [:: [:: 0%R]])) with
  | Ok Z => size (rows Z) = 1 /\ ncols Z = minn 10 2 /\ (10 <= 2 -> ncols Z = 10)
  | Exn e => e = LinAlgError
  end.
Proof.
have h0 : 0 < size (rows (Mat 1 [:: [:: 0%R]] : mat rat)) by vm_compute.
have c0 : 0 < ncols (Mat 1 [:: [:: 0%R]] : mat rat) by vm_compute.
exact (fit_transform_rows_cols argsort_by_sort_perm crbf_Ok cinv_shape cinv_exn
  ceigh_shape ceigh_exn 10 1%R (2%:R / 5%:R)%R erefl c0 h0 h0).
Defined.

Section ClaimsSeed.
Variable R : realFieldType.
Variable Rng : Type.
Variable random_sample : Rng -> R * Rng.
Variable permutation : Rng -> nat -> seq nat * Rng.
Variable argsort : forall T : Type, rel T -> seq T -> seq nat.
Variable rbf_kernel : R -> mat R -> except (mat R).
Variable inv : mat R -> except (mat R).
Variable eigh : mat R -> except (seq R * mat R).
Variable Problem : Type.
Variables (xl xu : Problem -> seq R) (n_var n_obj : Problem -> nat).
Variable evaluate : Problem -> seq R -> seq R.
Variable non_dominated : mat R -> seq nat.
Hypothesis permutation_spec : forall g n, perm_eq (permutation g n).1 (iota 0 n).
Hypothesis argsort_perm :
  forall (T : Type) (le : rel T) (s : seq T), perm_eq (argsort le s) (iota 0 (size s)).
Hypothesis argsort_sorted :
  forall (T : Type) (le : rel T) (x0 : T) (s : seq T),
    total le -> sorted (fun i j => le (nth x0 s i) (nth x0 s j)) (argsort le s).
Hypothesis rbf_Ok : forall g X, 0 < size (rows X) -> 0 < ncols X ->
  exists K, rbf_kernel g X = Ok K /\ size (rows K) = size (rows X) /\ ncols K = size (rows X).
Hypothesis inv_shape : forall M M', inv M = Ok M' ->
  size (rows M') = size (rows M) /\ ncols M' = ncols M.
Hypothesis inv_exn : forall M e, inv M = Exn e -> e = LinAlgError.
Hypothesis eigh_shape : forall M w V, eigh M = Ok (w, V) ->
  size w = size (rows M) /\ size (rows V) = size (rows M) /\
  all (fun r => size r == size (rows M)) (rows V).
Hypothesis eigh_exn : forall M e, eigh M = Exn e -> e = LinAlgError.
Hypothesis non_dominated_spec : forall F, 0 < size (rows F) ->
  0 < size (non_dominated F) /\ all (fun i => i < size (rows F)) (non_dominated F).

(** C2: in every non-initial environment step the seed population has
    exactly [population_size] rows (of width 10): up to 40 transferred
    vectors, 20 random points and up to 40 crowding-selected elites, padded
    with uniform samples. The step is taken, as the driver takes it, for a
    problem with [n_var = 10] and 10 bounds on each side (the [DF14]
    problems of the run; other widths are C10), and an archive of 1 to
    1000 vectors of width 10 (step 0 has saved the optimizer's non-empty
    result). The one exception left is a [LinAlgError] of [np.linalg],
    which the code does not catch. *)
Theorem seed_population_size (p : Problem) (saved : seq (seq R)) (g : Rng) :
  size (xl p) = 10 -> size (xu p) = 10 -> n_var p = 10 ->
  saved != [::] -> all (fun r => size r == 10) saved ->
  all (fun r => size (evaluate p r) == n_obj p) saved ->
  match seed_population random_sample permutation argsort rbf_kernel inv eigh
          xl xu n_var n_obj evaluate non_dominated p saved g with
  | Ok (M, _) => size (rows M) = population_size /\ ncols M = 10
  | Exn e => e = LinAlgError
  end.
Proof.
move=> sl su nv sne w10 wev.
exact (seed_population_full random_sample permutation_spec argsort_perm argsort_sorted rbf_Ok
  inv_shape inv_exn eigh_shape eigh_exn non_dominated_spec g sl su nv sne w10 wev).
Qed.

(** C10 (amended): for a problem whose [n_var] is not 10, with [n_var]
    bounds on each side and a non-empty archive of [n_var]-wide vectors,
    the step raises a [ValueError] before any seed component is stacked:
    the first [np.random.uniform(xl, xu, (50, 10))] refuses the bounds
    (shape mismatch), or, for [n_var = 1], where they broadcast, the
    stacking of archive and target inside [TCA.fit_transform] fails. *)
Theorem seed_population_wrong_nvar (p : Problem) (saved : seq (seq R)) (g : Rng) :
  n_var p != 10 -> size (xl p) = n_var p -> size (xu p) = n_var p ->
  saved != [::] -> all (fun r => size r == n_var p) saved ->
  all (fun r => size (evaluate p r) == n_obj p) saved ->
  seed_population random_sample permutation argsort rbf_kernel inv eigh
    xl xu n_var n_obj evaluate non_dominated p saved g =
    Exn (ValueError (if n_var p == 1%N then ConcatDimMismatch else ShapeMismatch)).
Proof.
move=> n10 sl su sne ww wev.
exact (seed_population_nvar random_sample permutation rbf_kernel inv eigh non_dominated argsort_perm argsort_sorted g n10 sl su sne ww wev).
Qed.

End ClaimsSeed.

(** A run of the step over the binary rationals: an archive of one
    vector, bounds [0] and [1], draws all 0. The 51 stacked points are
    equal, so the kernel is the all-ones matrix [J], [K + I] is inverted,
    [Kc = J / 52] and [Kc L Kc = 0]: the transfer succeeds, and the seed
    population is 1 transferred vector, 20 random points, 1 elite and 78
    uniform samples. *)
Lemma seed_population_size_witness :
  match seed_population (R := qc) crandom_sample cpermutation argsort_by_sort crbf cinv ceigh
          cxl cxu cn_var cn_obj cevaluate cfront 10 [:: nseq 10 0%R] 0 with
  | Ok (M, _) => Some (size (rows M), ncols M)
  | Exn _ => None
  end = Some (100, 10) /\
  match seed_population (R := qc) crandom_sample cpermutation argsort_by_sort crbf cinv ceigh
          cxl cxu cn_var cn_obj cevaluate cfront 10 [:: nseq 10 0%R] 0 return Prop with
  | Ok (M, _) => size (rows M) = population_size /\ ncols M = 10
  | Exn e => e = LinAlgError
  end.
Proof.
split; first by vm_compute.
have h1 : size (cxl (R := qc) 10) = 10 by vm_compute.
have h2 : size (cxu (R := qc) 10) = 10 by vm_compute.
have h3 : cn_var 10 = 10 by vm_compute.
have h4 : [:: nseq 10 0%R] != [::] :> seq (seq qc) by vm_compute.
have h5 : all (fun r => size r == 10) [:: nseq 10 0%R : seq qc] by vm_compute.
have h6 : all (fun r => size (cevaluate 10 r) == cn_obj 10) [:: nseq 10 0%R : seq qc].
  by vm_compute.
exact (@seed_population_size qc nat crandom_sample cpermutation argsort_by_sort crbf cinv
  ceigh nat cxl cxu cn_var cn_obj cevaluate cfront cpermutation_spec argsort_by_sort_perm
  argsort_by_sort_sorted crbf_Ok cinv_shape cinv_exn ceigh_shape ceigh_exn cfront_spec
  10 [:: nseq 10 0%R] 0 h1 h2 h3 h4 h5 h6).
Defined.

(** C10: with [n_var = 3] the step raises the shape mismatch of its first
    [np.random.uniform(xl, xu, (50, 10))] call, not an error of the
    stacking of seed components. *)
Lemma seed_population_nvar3 :
  match seed_population (R := rat) crandom_sample cpermutation argsort_by_sort crbf cinv ceigh
          cxl cxu cn_var cn_obj cevaluate cfront 3 [:: nseq 3 0%R] 0 with
  | Ok _ => None
  | Exn e => Some e
  end = Some (ValueError ShapeMismatch) /\
  match np_uniform (R := rat) crandom_sample 0 (cxl 3) (cxu 3) 50 10 with
  | Ok _ => None
  | Exn e => Some e
  end = Some (ValueError ShapeMismatch).
Proof. by split; vm_compute. Qed.

Lemma seed_population_wrong_nvar_witness :
  seed_population (R := rat) crandom_sample cpermutation argsort_by_sort crbf cinv ceigh
    cxl cxu cn_var cn_obj cevaluate cfront 1 [:: nseq 1 0%R] 0 =
  Exn (ValueError (if cn_var 1 == 1%N then ConcatDimMismatch else ShapeMismatch)).
Proof.
have h0 : cn_var 1 != 10 by vm_compute.
have h1 : size (cxl (R := rat) 1) = cn_var 1 by vm_compute.
have h2 : size (cxu (R := rat) 1) = cn_var 1 by vm_compute.
have h4 : [:: nseq 1 0%R] != [::] :> seq (seq rat) by vm_compute.
have h5 : all (fun r => size r == cn_var 1) [:: nseq 1 0%R : seq rat] by vm_compute.
have h6 : all (fun r => size (cevaluate 1 r) == cn_obj 1) [:: nseq 1 0%R : seq rat].
  by vm_compute.
exact (@seed_population_wrong_nvar rat nat crandom_sample cpermutation argsort_by_sort crbf
  cinv ceigh nat cxl cxu cn_var cn_obj cevaluate cfront argsort_by_sort_perm
  argsort_by_sort_sorted 1 [:: nseq 1 0%R] 0 h0 h1 h2 h4 h5 h6).
Defined.

(** C4: the environment loop runs once per entry of
    [time_steps], that is 21 times ([range(0, 201, 10)]), whatever
    [num_changes] (9, never read): a completed run has appended exactly 21
    fronts to [fronts_this_run], one per environment instantiated,
    optimized, scored and archived. *)
Theorem run_environments_count (S Front : Type)
    (env_step : nat -> rat -> S -> except (S * Front)) (st st' : S) (fronts : seq Front) :
  run env_step st = Ok (st', fronts) ->
  size fronts = size time_steps /\ size time_steps = 21.
Proof.
move=> H; have := foldM_loop_body_size H.
rewrite size_zip size_iota minnn add0n /= => ->.
by split; last exact: size_time_steps.
Qed.

(** C4: a run whose every step succeeds goes through 21 environments, not
    [num_changes + 1 = 10]. *)
Lemma run_twenty_one_environments :
  run (fun idx _ (st : nat) => Ok (st.+1, idx)) 0 = Ok (21, iota 0 21) /\
  21 <> num_changes + 1.
Proof. by split; vm_compute. Qed.

Lemma run_environments_count_witness :
  size (iota 0 21) = size time_steps /\ size time_steps = 21.
Proof.
have h : run (fun idx _ (st : nat) => Ok (st.+1, idx)) 0 = Ok (21, iota 0 21).
  by vm_compute.
exact (run_environments_count h).
Defined.

(* ====================================================================== *)
(** * Further properties of the code *)

Section SpacingThms.
Variable R : rcfType.
Local Open Scope ring_scope.

(** compute_sp returns 0 for fewer than two points. Otherwise
    [np.min(distances, axis=1)] on the distance matrix whose diagonal is
    set to [np.inf] does not fail and gives, for each row of [F], the
    Euclidean distance [D[i]] from the row to its nearest other row; no
    [D[i]] is infinite, and compute_sp returns the sample standard
    deviation [sqrt(sum((D - mean(D))**2) / (n - 1))] of [D]. *)
Theorem compute_sp_nearest_neighbour (F : mat R) :
  if (size (rows F) < 2)%N then compute_sp F = Ok 0 else
  exists D : seq R,
    np_min_axis1 (size (rows F)) (fill_diagonal_inf (cdist_self F)) = Ok [seq Fin d | d <- D] /\
    size D = size (rows F) /\
    (forall i, (i < size (rows F))%N ->
       (exists j, (j < size (rows F))%N /\ j != i /\
          nth 0 D i = euclid (nth [::] (rows F) i) (nth [::] (rows F) j)) /\
       (forall j, (j < size (rows F))%N -> j != i ->
          nth 0 D i <= euclid (nth [::] (rows F) i) (nth [::] (rows F) j))) /\
    compute_sp F =
      Ok (Num.sqrt (rsum [seq (d - rsum D / (size D)%:R) ^+ 2 | d <- D] / (size D - 1)%:R)).
Proof.
case: ltnP => n2; first by rewrite /compute_sp n2.
set n := size (rows F).
set D := [seq nn_dist F i | i <- iota 0 n].
have szD : size D = n by rewrite size_map size_iota.
have ED : [seq Fin (nn_dist F i) | i <- iota 0 n] = [seq Fin d | d <- D] by rewrite -map_comp.
exists D; split; first by rewrite np_min_axis1_nn // ED.
split=> //; split.
  move=> i ilt; rewrite (nth_map 0) ?size_iota // nth_iota // add0n.
  exact: nn_dist_spec.
rewrite /compute_sp ltnNge n2 /= np_min_axis1_nn //= -/n ED.
have -> : has (@is_inf R) [seq Fin d | d <- D] = false.
  by rewrite has_map; apply/negbTE/hasPn.
have -> : [seq fin_val x | x <- [seq Fin d | d <- D]] = D.
  by elim: (D) => //= d D' ->.
by rewrite szD.
Qed.

End SpacingThms.

Section MetricsThms.
Variable R : rcfType.
Local Open Scope ring_scope.

(** compute_ms raises [ValueError] when [F] or [true_pf] has no row, raises
    [IndexError] when [true_pf] has fewer columns than [F], returns [nan]
    ([None]) when [F] has no column, and otherwise a non-negative value. *)
Theorem compute_ms_outcome (F true_pf : mat R) :
  exists v, 0 <= v /\
    compute_ms F true_pf =
      if (rows F == [::]) || (rows true_pf == [::]) then Exn (ValueError ZeroSizeReduction)
      else if (ncols true_pf < ncols F)%N then Exn IndexError
      else if ncols F == 0%N then Ok None else Ok (Some v).
Proof.
case EF: (rows F == [::]).
  by exists 0; split=> //; rewrite /compute_ms /np_min_axis0 (eqP EF).
case ET: (rows true_pf == [::]) => /=.
  exists 0; split=> //; have [mn [Emn _]] := np_min_axis0_Ok (negbT EF).
  have [mx [Emx _]] := np_max_axis0_Ok (negbT EF).
  by rewrite /compute_ms Emn Emx /= /np_min_axis0 (eqP ET).
have [fmn [Efmn sfmn]] := np_min_axis0_Ok (negbT EF).
have [fmx [Efmx sfmx]] := np_max_axis0_Ok (negbT EF).
have [tmn [Etmn stmn]] := np_min_axis0_Ok (negbT ET).
have [tmx [Etmx stmx]] := np_max_axis0_Ok (negbT ET).
set comp := fun k =>
  let numerator := Num.min (nth 0 tmx k) (nth 0 fmx k) - Num.max (nth 0 tmn k) (nth 0 fmn k) in
  let denominator := nth 0 tmx k - nth 0 tmn k in
  if `|denominator| < ms_eps R then 0 else (numerator / denominator) ^+ 2.
rewrite /compute_ms Efmn Efmx Etmn Etmx /=.
rewrite (@mapM_iota_index _ _ comp _ (ncols true_pf)).
  move=> k kF; case: ltnP => kT.
    by rewrite !(py_get_nth 0) ?stmx ?sfmx ?stmn ?sfmn.
  by rewrite py_get_oob ?stmx.
exists (Num.sqrt ((\sum_(c <- map comp (iota 0 (ncols F))) c) / (ncols F)%:R)).
split; first exact: sqrtr_ge0.
by case: ltnP.
Qed.

End MetricsThms.

Section CrowdingThms.
Variable R : realFieldType.
Variable argsort : forall T : Type, rel T -> seq T -> seq nat.
Hypothesis argsort_perm :
  forall (T : Type) (le : rel T) (s : seq T), perm_eq (argsort le s) (iota 0 (size s)).
Hypothesis argsort_sorted :
  forall (T : Type) (le : rel T) (x0 : T) (s : seq T),
    total le -> sorted (fun i j => le (nth x0 s i) (nth x0 s j)) (argsort le s).
Local Open Scope ring_scope.

(** crowding_distance on a front with at least one point returns one entry
    per point, each [inf] or a non-negative number. *)
Theorem crowding_distance_nonneg (F : mat R) :
  (0 < size (rows F))%N ->
  exists d, crowding_distance argsort F = Ok d /\ size d = size (rows F) /\
    forall j, (j < size (rows F))%N ->
      nth (Fin 0) d j = Inf R true \/ exists x, nth (Fin 0) d j = Fin x /\ 0 <= x.
Proof.
move=> n0; have [d [Ed [sd nd]]] := @crowding_distance_spec R argsort argsort_perm F n0.
exists d; split=> //; split=> // j jn; rewrite nd //.
case: ifP => hx; [by left | right].
eexists; split; first reflexivity.
rewrite big_seq; apply: sumr_ge0 => m mi.
apply: (crowd_contrib_ge0 argsort_perm argsort_sorted) => //.
by apply: contraFN hx => e; apply/hasP; exists m.
Qed.

(** crowding_distance on a front with no point returns the empty array
    when [F] has no column, and raises [IndexError] ([sorted_indices[0]]
    of an empty argsort) otherwise. *)
Theorem crowding_distance_empty_front (F : mat R) :
  rows F = [::] ->
  crowding_distance argsort F = if ncols F == 0%N then Ok [::] else Exn IndexError.
Proof.
move=> E; rewrite /crowding_distance E.
case: (ncols F) => [|k] //=; rewrite /crowding_dim.
have -> : argsort <=%R (column F 0) = [::].
  by apply/nilP; rewrite /nilp (perm_size (argsort_perm _ _)) size_iota /column E.
by rewrite /crowding_dim /column E /py_get.
Qed.

End CrowdingThms.

Lemma crowding_distance_nonneg_witness :
  (0 < size (rows (front3 rat)))%N /\
  exists d, crowding_distance argsort_by_sort (front3 rat) = Ok d /\ size d = 3.
Proof.
split; first by [].
have [d [E [sd _]]] := @crowding_distance_nonneg rat argsort_by_sort
   argsort_by_sort_perm argsort_by_sort_sorted (front3 rat) isT.
by exists d.
Defined.

Lemma crowding_distance_empty_front_witness :
  crowding_distance argsort_by_sort (Mat 2 [::] : mat rat) = Exn IndexError.
Proof.
exact (@crowding_distance_empty_front rat argsort_by_sort argsort_by_sort_perm
         (Mat 2 [::]) erefl).
Defined.

Section SaveEliteThms.
Variables (Rng : Type) (permutation : Rng -> nat -> seq nat * Rng) (T : eqType).
Hypothesis permutation_spec : forall g n, perm_eq (permutation g n).1 (iota 0 n).

(** save_elite_solutions never raises, and the new archive together with
    the entries it drops makes up, as a multiset, the old archive followed
    by [var]. *)
Theorem save_elite_submultiset (var : seq T) (max_save : nat) (solutions : seq T)
    (max_per_problem : nat) (g : Rng) :
  exists res g' rest,
    save_elite_solutions permutation var max_save solutions max_per_problem g = Ok (res, g') /\
    perm_eq (solutions ++ var) (res ++ rest).
Proof.
case E: (solutions ++ var) => [|x0 l].
  have [-> ->] : solutions = [::] /\ var = [::] by case: solutions E; case: var.
  by exists [::], g, [::]; rewrite /save_elite_solutions.
have := save_elite_solutions_eq permutation_spec x0 var max_save solutions max_per_problem g.
have [_ [r1 p1]] := save_elite_cap permutation_spec x0 var max_per_problem g.
move: p1; set ce := (if _ then _ else _) => p1 /= ->.
case: ltnP => [lt|le].
  eexists; eexists; exists ([seq nth x0 (solutions ++ ce.1) i
      | i <- drop max_save (permutation ce.2 (size (solutions ++ ce.1))).1] ++ r1).
  split; first reflexivity.
  rewrite -E catA; apply: (perm_trans (perm_cat (perm_refl solutions) p1)).
  rewrite catA perm_cat2r.
  by apply: gather_take_perm; exact: permutation_spec.
by exists (solutions ++ ce.1), ce.2, r1; split=> //; rewrite -E -catA perm_cat2l.
Qed.

(** save_elite_solutions keeps the whole old archive, in order, when it and
    the [min(len(var), max_per_problem)] sampled vectors fit in
    [max_save]: the new archive is the old one followed by that many
    entries of [var], drawn without replacement. *)
Theorem save_elite_keeps_archive (var : seq T) (max_save : nat) (solutions : seq T)
    (max_per_problem : nat) (g : Rng) :
  (size solutions + minn (size var) max_per_problem <= max_save)%N ->
  exists new g' rest,
    save_elite_solutions permutation var max_save solutions max_per_problem g =
      Ok (solutions ++ new, g') /\
    size new = minn (size var) max_per_problem /\ perm_eq var (new ++ rest).
Proof.
move=> fits; case: var fits => [|x0 var'] fits.
  exists [::], g, [::]; split; last by rewrite min0n.
  rewrite /save_elite_solutions /= cats0.
  by move: fits; rewrite min0n addn0 leqNgt => /negbTE ->.
have := save_elite_solutions_eq permutation_spec x0 (x0 :: var') max_save solutions max_per_problem g.
have [sz [r1 p1]] := save_elite_cap permutation_spec x0 (x0 :: var') max_per_problem g.
move: sz p1; set ce := (if _ then _ else _) => sz p1 /= ->.
rewrite size_cat sz ltnNge fits /=.
by exists ce.1, ce.2, r1.
Qed.

End SaveEliteThms.

Lemma save_elite_submultiset_witness :
  exists res g' rest,
    save_elite_solutions (fun (g : unit) n => (iota 0 n, g))
      [:: 4; 5; 6] 3 [:: 1; 2] 2 tt = Ok (res, g') /\
    perm_eq ([:: 1; 2] ++ [:: 4; 5; 6]) (res ++ rest).
Proof.
exact (@save_elite_submultiset unit (fun (g : unit) n => (iota 0 n, g)) nat
         (fun g n => perm_refl _) [:: 4; 5; 6] 3 [:: 1; 2] 2 tt).
Defined.

Lemma save_elite_keeps_archive_witness :
  exists new g' rest,
    save_elite_solutions (fun (g : unit) n => (iota 0 n, g))
      [:: 4; 5; 6] 10 [:: 1; 2] 2 tt = Ok ([:: 1; 2] ++ new, g') /\
    size new = 2 /\ perm_eq [:: 4; 5; 6] (new ++ rest).
Proof.
have h : (size [:: 1; 2] + minn (size [:: 4; 5; 6]) 2 <= 10)%N by vm_compute.
exact (@save_elite_keeps_archive unit (fun (g : unit) n => (iota 0 n, g)) nat
         (fun g n => perm_refl _) [:: 4; 5; 6] 10 [:: 1; 2] 2 tt h).
Defined.

Section ClipThms.
Variable R : realFieldType.
Local Open Scope ring_scope.

(** ClipRepair._do is idempotent: repairing a repaired population changes
    nothing, and a repair that raises raises the same way. *)
Theorem clip_repair_idempotent (xl xu : seq R) (X : mat R) :
  (let* Y := ClipRepair_do xl xu X in ClipRepair_do xl xu Y) = ClipRepair_do xl xu X.
Proof.
rewrite /ClipRepair_do /np_clip; case E: bcast_dim => [w|] //=.
rewrite (bcast_dim_idem E) /=; congr (Ok (Mat w _)).
rewrite -map_comp; apply/eq_in_map => r _ /=.
rewrite -/(clip_row (bcast_to r w) (bcast_to xl w) (bcast_to xu w)).
set y := clip_row _ _ _.
have sy : size y = w by rewrite /y size_clip_row !size_bcast_to !minnn.
by rewrite -{1}sy bcast_to_id -/(clip_row y _ _) /y (@clip_row_idem _ _ _ _ w) ?size_bcast_to.
Qed.

(** ClipRepair._do on a rectangular population whose bounds have one entry
    per variable, with [xl <= xu], returns a population of the same shape
    whose every entry lies within its variable's bounds. *)
Theorem clip_repair_within_bounds (xl xu : seq R) (X : mat R) :
  wf X -> size xl = ncols X -> size xu = ncols X ->
  (forall k, (k < ncols X)%N -> nth 0 xl k <= nth 0 xu k) ->
  exists Y, ClipRepair_do xl xu X = Ok Y /\ ncols Y = ncols X /\
    size (rows Y) = size (rows X) /\ wf Y /\
    forall i k, (i < size (rows X))%N -> (k < ncols X)%N ->
      nth 0 xl k <= entry Y i k <= nth 0 xu k.
Proof.
move=> wX sl sh lh; rewrite /ClipRepair_do /np_clip sl sh bcast_dim_same.
have b1 : bcast_to xl (ncols X) = xl by rewrite -sl bcast_to_id.
have b2 : bcast_to xu (ncols X) = xu by rewrite -sh bcast_to_id.
rewrite /= b1 b2.
eexists; split; first reflexivity.
split; first by [].
split; first by rewrite size_map.
have rowsz r : r \in rows X -> size r = ncols X by move=> rX; apply/eqP; exact: (allP wX).
split.
  apply/allP => /= y /mapP [r rX ->].
  by rewrite -/(clip_row _ _ _) size_clip_row size_bcast_to sl sh !minnn.
move=> i k iX kX; rewrite /entry /= (nth_map [::]) //.
have ri : size (nth [::] (rows X) i) = ncols X by apply: rowsz; exact: mem_nth.
rewrite bcast_to_eq // -/(clip_row _ _ _).
rewrite nth_clip_row ?ri ?sl ?sh //.
exact: clip1_bounds (lh k kX).
Qed.

(** ClipRepair._do returns a rectangular population unchanged when its
    entries already lie within bounds that have one entry per variable. *)
Theorem clip_repair_feasible_unchanged (xl xu : seq R) (X : mat R) :
  wf X -> size xl = ncols X -> size xu = ncols X ->
  (forall i k, (i < size (rows X))%N -> (k < ncols X)%N ->
     nth 0 xl k <= entry X i k <= nth 0 xu k) ->
  ClipRepair_do xl xu X = Ok X.
Proof.
move=> wX sl sh inb; rewrite /ClipRepair_do /np_clip sl sh bcast_dim_same.
have b1 : bcast_to xl (ncols X) = xl by rewrite -sl bcast_to_id.
have b2 : bcast_to xu (ncols X) = xu by rewrite -sh bcast_to_id.
rewrite /= b1 b2; clear b1 b2.
case: X wX sl sh inb => c rs /= wX sl sh inb; congr (Ok (Mat c _)).
have rowsz r : r \in rs -> size r = c by move=> rX; apply/eqP; exact: (allP wX).
apply: (@eq_from_nth _ [::]); first by rewrite size_map.
move=> i; rewrite size_map => irs.
have ri : size (nth [::] rs i) = c by apply: rowsz; exact: mem_nth.
rewrite (nth_map [::]) // bcast_to_eq // -/(clip_row _ _ _).
apply: (@eq_from_nth _ 0); first by rewrite size_clip_row ri sl sh !minnn.
move=> k; rewrite size_clip_row ri sl sh !minnn => kc.
rewrite nth_clip_row ?ri ?sl ?sh //.
exact: clip1_id (inb i k irs kc).
Qed.

End ClipThms.

Lemma clip_repair_within_bounds_witness :
  (exists Y, ClipRepair_do [:: 0; 0] [:: 1; 1] (Mat 2 [:: [:: 3; -1]] : mat rat) = Ok Y /\
    ncols Y = 2%N /\ size (rows Y) = 1%N /\ wf Y /\
    forall i k, (i < 1)%N -> (k < 2)%N ->
      nth 0 [:: 0; 0] k <= entry Y i k <= nth 0 [:: 1; 1] k)%R.
Proof.
have lh : forall k, (k < 2)%N -> (nth 0 [:: 0; 0] k <= nth 0 [:: 1; 1] k :> rat)%R.
  by move=> [|[|k]].
exact: (@clip_repair_within_bounds rat [:: 0; 0]%R [:: 1; 1]%R (Mat 2 [:: [:: 3; -1]])%R
          isT erefl erefl lh).
Defined.

Lemma clip_repair_feasible_unchanged_witness :
  ClipRepair_do [:: 0; 0]%R [:: 1; 1]%R (Mat 2 [:: [:: 1/2; 1]]%R : mat rat) =
  Ok (Mat 2 [:: [:: 1/2; 1]]%R).
Proof.
apply: (@clip_repair_feasible_unchanged rat) => //.
by move=> [|i] [|[|k]] //=.
Defined.

Section SubsetThms.
Variable R : realFieldType.
Variable argsort : forall T : Type, rel T -> seq T -> seq nat.
Hypothesis argsort_perm :
  forall (T : Type) (le : rel T) (s : seq T), perm_eq (argsort le s) (iota 0 (size s)).
Hypothesis argsort_sorted :
  forall (T : Type) (le : rel T) (x0 : T) (s : seq T),
    total le -> sorted (fun i j => le (nth x0 s i) (nth x0 s j)) (argsort le s).
Variable evaluate : seq R -> seq R.
Variable n_obj : nat.

(** select_subset on an archive larger than [max_elements] raises
    [ValueError] when one of the vectors evaluates to an objective row
    whose length is neither [n_obj] nor 1. *)
Theorem select_subset_broadcast_error (saved : seq (seq R)) (max_elements : nat) :
  max_elements < size saved ->
  has (fun r => (size (evaluate r) != n_obj) && (size (evaluate r) != 1)) saved ->
  select_subset argsort evaluate n_obj saved max_elements =
    Exn (ValueError CouldNotBroadcastInto).
Proof.
move=> kn Hb.
have n0 : size saved != 0 by rewrite -lt0n (leq_ltn_trans _ kn).
rewrite /select_subset (negbTE n0) leqNgt kn /= mapM_row_assign_fail //.
rewrite -has_predC; apply: sub_has Hb => r /=.
by rewrite /broadcastable negb_or.
Qed.

(** select_subset on an archive larger than [max_elements] whose vectors
    all evaluate to [n_obj] or 1 objectives returns [max_elements] of its
    vectors, ranked by the sums of their objective rows after broadcasting
    a single objective across the [n_obj] columns. *)
Theorem select_subset_broadcast_rank (saved : seq (seq R)) (k : nat) :
  k < size saved -> all (broadcastable evaluate n_obj) saved ->
  exists best rest,
    select_subset argsort evaluate n_obj saved k =
      Ok (Arr2 (Mat (ncols (np_array saved)) best)) /\
    size best = k /\ perm_eq saved (best ++ rest) /\
    {in best & rest, forall x y,
       assigned_sum evaluate n_obj x <= assigned_sum evaluate n_obj y}%R.
Proof.
move=> kn Hs.
have n0 : size saved != 0 by rewrite -lt0n (leq_ltn_trans _ kn).
rewrite /select_subset (negbTE n0) leqNgt kn /= mapM_row_assign_bcast // bind_Ok.
set sums := [seq (\sum_(x <- r) x)%R | r <- _].
have Esums : sums = [seq assigned_sum evaluate n_obj r | r <- saved].
  by rewrite /sums -map_comp; apply/eq_map => r /=; rewrite sum_assigned_row.
set o := argsort _ sums.
have po : perm_eq o (iota 0 (size saved)).
  by rewrite (perm_trans (argsort_perm _ _)) // Esums size_map.
have Ho : all (fun i => i < size saved) (take k o).
  apply/allP => i /mem_take; rewrite (perm_mem po) mem_iota.
  by rewrite add0n.
rewrite (py_gather_nth [::] Ho) bind_Ok.
exists [seq nth [::] saved i | i <- take k o], [seq nth [::] saved i | i <- drop k o].
split=> //.
split; first by rewrite size_map size_take (perm_size po) size_iota kn.
split.
  rewrite -map_cat cat_take_drop -{1}(mkseq_nth [::] saved) /mkseq.
  by rewrite perm_map // perm_sym.
have so : sorted (fun i j => nth 0%R sums i <= nth 0%R sums j)%R o.
  exact: argsort_sorted (@le_total _ R).
have tr : transitive (fun i j => nth 0%R sums i <= nth 0%R sums j)%R.
  by move=> a b c h1 h2; exact: le_trans h1 h2.
rewrite (sorted_pairwise tr) in so.
move: so; rewrite -{1}(cat_take_drop k o) pairwise_cat => /andP[/allrelP H _].
move=> x y /mapP[a ain ->] /mapP[b bin ->].
have lt_of : forall c, c \in o -> c < size saved.
  by move=> c; rewrite (perm_mem po) mem_iota add0n.
have aS := lt_of a (mem_take ain); have bS := lt_of b (mem_drop bin).
have := H a b ain bin; rewrite Esums !(nth_map [::]) //.
Qed.

End SubsetThms.

Lemma select_subset_broadcast_error_witness :
  select_subset argsort_by_sort id 2 [:: [:: 1%R]; [:: 2%R; 3%R; 4%R] : seq rat] 1 =
    Exn (ValueError CouldNotBroadcastInto).
Proof.
exact: (@select_subset_broadcast_error rat argsort_by_sort id 2
          [:: [:: 1%R]; [:: 2%R; 3%R; 4%R]] 1 isT isT).
Defined.

Lemma select_subset_broadcast_rank_witness :
  exists best rest,
    select_subset argsort_by_sort id 2 [:: [:: 3%R]; [:: 1%R; 1%R]; [:: 2%R] : seq rat] 2 =
      Ok (Arr2 (Mat 1 best)) /\
    size best = 2 /\ perm_eq [:: [:: 3%R]; [:: 1%R; 1%R]; [:: 2%R]] (best ++ rest) /\
    {in best & rest, forall x y, assigned_sum id 2 x <= assigned_sum id 2 y}%R.
Proof.
exact: (@select_subset_broadcast_rank rat argsort_by_sort
          argsort_by_sort_perm argsort_by_sort_sorted id 2
          [:: [:: 3%R]; [:: 1%R; 1%R]; [:: 2%R]] 2 isT isT).
Defined.

Section TCAThms.
Variable R : realFieldType.
Local Open Scope ring_scope.

(** TCA.fit_transform: for [ns, nt > 0] the matrix [L] is the rank-one MMD
    matrix [e e^T], with [e_i = 1/ns] for a source row and [-1/nt] for a
    target row, and each of its rows sums to 0. *)
Theorem tca_L_mmd (ns nt : nat) : (0 < ns)%N -> (0 < nt)%N ->
  exists L, tca_L R ns nt = Ok L /\ wf L /\
    size (rows L) = (ns + nt)%N /\ ncols L = (ns + nt)%N /\
    (forall i j, (i < ns + nt)%N -> (j < ns + nt)%N ->
       entry L i j = tca_e R ns nt i * tca_e R ns nt j) /\
    (forall i, (i < ns + nt)%N -> rsum (nth [::] (rows L) i) = 0).
Proof.
move=> ns0 nt0.
have a : (ns%:R : R) != 0 by rewrite pnatr_eq0 -lt0n.
have b : (nt%:R : R) != 0 by rewrite pnatr_eq0 -lt0n.
rewrite /tca_L !py_div_Ok ?expn_gt0 ?ns0 ?nt0 ?muln_gt0 ?ns0 //=.
eexists; split; first reflexivity.
set n := (ns + nt)%N.
have Ent : forall i j, (i < n)%N -> (j < n)%N ->
    entry (Mat n [seq [seq if (i < ns)%N then (if (j < ns)%N then 1 / (ns ^ 2)%:R
                      else -1 / (ns * nt)%:R)
                      else (if (j < ns)%N then -1 / (ns * nt)%:R else 1 / (nt ^ 2)%:R)
                      | j <- iota 0 n] | i <- iota 0 n]) i j =
    tca_e R ns nt i * tca_e R ns nt j.
  move=> i j ilt jlt; rewrite /entry /= (nth_map 0%N) ?size_iota //.
  rewrite (nth_map 0%N) ?size_iota // !nth_iota // !add0n /tca_e.
  by case: ifP => _; case: ifP => _; rewrite ?natrX ?natrM; field; rewrite ?a ?b.
split.
  by apply/allP => r /mapP[i _ ->]; rewrite /= size_map size_iota.
split; first by rewrite /= size_map size_iota.
split; first by [].
split; first exact: Ent.
move=> i ilt.
have -> : nth [::] (rows (Mat n [seq [seq if (i < ns)%N then (if (j < ns)%N then 1 / (ns ^ 2)%:R
                      else -1 / (ns * nt)%:R)
                      else (if (j < ns)%N then -1 / (ns * nt)%:R else 1 / (nt ^ 2)%:R)
                      | j <- iota 0 n] | i <- iota 0 n])) i =
    [seq tca_e R ns nt i * tca_e R ns nt j | j <- iota 0 n].
  apply: (@eq_from_nth _ 0); first by rewrite /= (nth_map 0%N) ?size_iota // !size_map.
  move=> j; rewrite /= (nth_map 0%N) ?size_iota // size_map size_iota => jlt.
  rewrite [RHS](nth_map 0%N) ?size_iota // (@nth_iota 0%N 0%N n j jlt) add0n.
  by have := Ent i j ilt jlt; rewrite /entry /= (nth_map 0%N) ?size_iota.
rewrite /n iotaD map_cat rsum_cat add0n.
rewrite (@rsum_iota_const _ _ (tca_e R ns nt i * (1 / ns%:R))); first
  by move=> j /andP[_ jl]; rewrite /tca_e jl.
rewrite (@rsum_iota_const _ _ (tca_e R ns nt i * (-1 / nt%:R))); first
  by move=> j /andP[jl _]; rewrite /tca_e [(j < ns)%N]ltnNge jl.
by rewrite /tca_e; case: ifP => _; field; rewrite ?a ?b.
Qed.

End TCAThms.

Lemma tca_L_mmd_witness :
  exists L, tca_L rat 1 2 = Ok L /\ wf L /\
    size (rows L) = 3%N /\ ncols L = 3%N /\
    (forall i j, (i < 3)%N -> (j < 3)%N ->
       entry L i j = (tca_e rat 1 2 i * tca_e rat 1 2 j)%R) /\
    (forall i, (i < 3)%N -> rsum (nth [::] (rows L) i) = 0%R).
Proof. exact: (@tca_L_mmd rat 1 2 isT isT). Defined.
Section TCAEmpty.
Variable R : realFieldType.
Variable argsort : forall T : Type, rel T -> seq T -> seq nat.
Variable rbf_kernel : R -> mat R -> except (mat R).
Variable inv : mat R -> except (mat R).
Variable eigh : mat R -> except (seq R * mat R).
Hypothesis rbf_Ok : forall g X, (0 < size (rows X))%N -> (0 < ncols X)%N ->
  exists K, rbf_kernel g X = Ok K /\ size (rows K) = size (rows X) /\ ncols K = size (rows X).

(** TCA.fit_transform raises [ZeroDivisionError] (at [1.0 / (ns**2)] or
    [1.0 / (nt**2)]) when the source or the target set has no row while the
    stacked data is a non-empty array that [rbf_kernel] accepts. *)
Theorem fit_transform_empty_side (dim : nat) (lamb gamma : R) (Xs Xt : ndarray R)
    (X_all : mat R) :
  vstack [:: Xs; Xt] = Ok X_all -> (0 < size (rows X_all))%N -> (0 < ncols X_all)%N ->
  py_len Xs = 0%N \/ py_len Xt = 0%N ->
  fit_transform argsort rbf_kernel inv eigh dim lamb gamma Xs Xt = Exn ZeroDivisionError.
Proof.
move=> V r0 c0 H; rewrite /fit_transform V bind_Ok.
have [K [-> _]] := rbf_Ok gamma r0 c0; rewrite bind_Ok /tca_L.
case: H => ->; first by [].
by case: (py_len Xs) => [|ns].
Qed.

End TCAEmpty.

Lemma fit_transform_empty_side_witness :
  fit_transform (R := rat) argsort_by_sort crbf cinv ceigh 10 1%R (2%:R / 5%:R)%R
    (Arr2 (Mat 1 [::])) (Arr2 (Mat 1 [:: [:: 0%R]])) = Exn ZeroDivisionError.
Proof.
exact: (@fit_transform_empty_side rat argsort_by_sort crbf cinv ceigh crbf_Ok 10 1%R (2%:R / 5%:R)%R
          (Arr2 (Mat 1 [::])) (Arr2 (Mat 1 [:: [:: 0%R]])) (Mat 1 [:: [:: 0%R]])
          erefl isT isT (or_introl erefl)).
Defined.

Section Problem1Thms.
Variable R : realFieldType.
Variables sin cos : R -> R.
Variable pi : R.
Local Open Scope ring_scope.

(** Problem1: the constant [c = max(|a|, a + b)] is positive for every
    [t], so [_evaluate] never divides by zero. *)
Theorem problem1_c_pos (n_var : nat) (t : R) :
  0 < Problem1.c (Problem1.init sin cos pi n_var t).
Proof.
rewrite /= lt_max; set x := sin _; set y := cos _.
have hy := normr_ge0 y.
case: (ltrP x 0) => hx.
  by rewrite normr_gt0 (ltr0_neq0 hx).
apply/orP; right; lra.
Qed.

(** Problem1: [g] is at least 1 on every row, and it is 1 exactly when
    every variable [x_k] ([1 <= k < n]) equals [a x_0^2 / ((k+1) c^2)]. *)
Theorem problem1_g_pareto (n_var : nat) (t : R) (n : nat) (r : seq R) :
  let P := Problem1.init sin cos pi n_var t in
  1 <= Problem1.g_row P n r /\
  (Problem1.g_row P n r = 1 <->
   forall k, (1 <= k < n)%N ->
     nth 0 r k = Problem1.a P * nth 0 r 0 ^+ 2 / ((k.+1)%:R * Problem1.c P ^+ 2)).
Proof. exact: g_row_pareto. Qed.

End Problem1Thms.
Section Problem1Eval.
Variable R : realFieldType.
Variables sin cos : R -> R.
Variable pi : R.
Local Open Scope ring_scope.

(** Problem1._evaluate raises [IndexError] on an array with no column;
    otherwise it returns two objectives per row, each at least
    [|x_0 - a|^H] and [|x_0 - a - b|^H] respectively (the float power being
    non-negative), with equality when the row lies on the Pareto set. *)
Theorem problem1_evaluate_objectives (rpow : R -> R -> R)
    (rpow_ge0 : forall x y, 0 <= x -> 0 <= rpow x y)
    (n_var : nat) (t : R) (X : mat R) :
  let P := Problem1.init sin cos pi n_var t in
  (ncols X = 0%N -> Problem1.evaluate rpow P X = Exn IndexError) /\
  ((0 < ncols X)%N ->
   exists Y, Problem1.evaluate rpow P X = Ok Y /\
     size (rows Y) = size (rows X) /\ ncols Y = 2%N /\ wf Y /\
     forall i, (i < size (rows X))%N ->
       let r := nth [::] (rows X) i in
       let h1 := rpow `|nth 0 r 0 - Problem1.a P| (Problem1.H P) in
       let h2 := rpow `|nth 0 r 0 - Problem1.a P - Problem1.b P| (Problem1.H P) in
       h1 <= entry Y i 0 /\ h2 <= entry Y i 1 /\
       ((forall k, (1 <= k < ncols X)%N ->
           nth 0 r k = Problem1.a P * nth 0 r 0 ^+ 2 / ((k.+1)%:R * Problem1.c P ^+ 2)) ->
        entry Y i 0 = h1 /\ entry Y i 1 = h2)).
Proof.
move=> P; split; first by move=> h0; rewrite /Problem1.evaluate h0.
move=> n0; rewrite /Problem1.evaluate; case: eqP n0 => [->|_ _] //=.
eexists; split; first reflexivity.
split; first by rewrite size_map.
split; first by [].
split; first by apply/allP => y /mapP[r _ ->].
move=> i iX.
have [g1 gE] := g_row_pareto P (ncols X) (nth [::] (rows X) i).
rewrite /entry /= (nth_map [::]) //=.
split; first by rewrite ler_peMl // rpow_ge0.
split; first by rewrite ler_peMl // rpow_ge0.
by move=> /gE ->; rewrite !mul1r.
Qed.

End Problem1Eval.

Lemma problem1_evaluate_objectives_witness :
  let P := Problem1.init (fun _ : rat => 0%R) (fun _ => 0%R) 0%R 2 0%R in
  (ncols (Mat 2 [:: [:: 1; 0]]%R : mat rat) = 0%N ->
     Problem1.evaluate (fun x _ => x) P (Mat 2 [:: [:: 1; 0]]%R : mat rat) = Exn IndexError) /\
  ((0 < ncols (Mat 2 [:: [:: 1; 0]]%R : mat rat))%N ->
   exists Y, Problem1.evaluate (fun x _ => x) P (Mat 2 [:: [:: 1; 0]]%R : mat rat) = Ok Y /\
     size (rows Y) = 1%N /\ ncols Y = 2%N /\ wf Y /\
     forall i, (i < 1)%N ->
       let r := nth [::] [:: [:: 1; 0]]%R i in
       let h1 := `|nth 0 r 0 - Problem1.a P|%R in
       let h2 := `|nth 0 r 0 - Problem1.a P - Problem1.b P|%R in
       (h1 <= entry Y i 0)%R /\ (h2 <= entry Y i 1)%R /\
       ((forall k, (1 <= k < 2)%N ->
           nth 0%R r k = (Problem1.a P * nth 0 r 0 ^+ 2 / ((k.+1)%:R * Problem1.c P ^+ 2))%R) ->
        entry Y i 0 = h1 /\ entry Y i 1 = h2)).
Proof.
exact: (@problem1_evaluate_objectives rat (fun _ => 0%R) (fun _ => 0%R) 0%R
          (fun x _ => x) (fun x _ h => h) 2 0%R (Mat 2 [:: [:: 1; 0]]%R : mat rat)).
Defined.

Open Scope string_scope.

Section TCAKernelThms.
Variable R : realFieldType.
Variable argsort : forall T : Type, rel T -> seq T -> seq nat.
Variable rbf_kernel : R -> mat R -> mat R -> mat R.
Variable inv : mat R -> except (mat R).
Variable eigh : mat R -> except (seq R * mat R).
Local Open Scope ring_scope.

(** TCA.fit_transform with [kernel_type = 'linear'] always raises
    [AttributeError] once [np.vstack] succeeds: [_kernel] is called without
    [X2], and [None.T] fails. *)
Theorem fit_transform_linear_kernel (dim : nat) (lamb gamma : R) (Xs Xt : ndarray R) :
  fit_transform_k argsort rbf_kernel inv eigh "linear" dim lamb gamma Xs Xt =
  match vstack [:: Xs; Xt] with
  | Ok _ => RErr AttributeError
  | Exn e => RErr (NumpyError e)
  end.
Proof. by rewrite /fit_transform_k /TCA_kernel /=; case: vstack. Qed.

(** TCA.fit_transform with a kernel type other than ['linear'] and ['rbf']
    raises [ZeroDivisionError] when one of the sets is empty and
    [TypeError] otherwise, at [K + self.lamb * np.eye(ns + nt)] with [K]
    the [None] that [_kernel] returns. *)
Theorem fit_transform_unknown_kernel (kernel_type : String.string) (dim : nat)
    (lamb gamma : R) (Xs Xt : ndarray R) :
  kernel_type <> "linear" -> kernel_type <> "rbf" ->
  fit_transform_k argsort rbf_kernel inv eigh kernel_type dim lamb gamma Xs Xt =
  match vstack [:: Xs; Xt] with
  | Ok _ =>
      if (py_len Xs == 0%N) || (py_len Xt == 0%N) then RErr (NumpyError ZeroDivisionError)
      else RErr TypeError
  | Exn e => RErr (NumpyError e)
  end.
Proof.
move=> nl nr; rewrite /fit_transform_k /TCA_kernel.
rewrite (proj2 (String.eqb_neq _ _) nl) (proj2 (String.eqb_neq _ _) nr).
case: vstack => //= X_all.
case: (posnP (py_len Xs)) => [->|ns0] //=.
case: (posnP (py_len Xt)) => [->|nt0] /=.
  by rewrite /tca_L py_div_Ok ?expn_gt0 ?ns0.
have [L [-> _]] := tca_L_Ok R ns0 nt0.
rewrite /= py_div_Ok ?addn_gt0 ?ns0 //=.
by have [H ->] := @madd_eye_ones_Ok R (py_len Xs + py_len Xt) (1 / (py_len Xs + py_len Xt)%:R).
Qed.

End TCAKernelThms.

Lemma fit_transform_unknown_kernel_witness :
  fit_transform_k argsort_by_sort (fun g (X : mat rat) _ => crbf_mat X) cinv ceigh "poly" 10 1%R (2%:R / 5%:R)%R
    (Arr2 (Mat 1 [:: [:: 0%R]])) (Arr2 (Mat 1 [:: [:: 1%R]])) =
  match vstack [:: Arr2 (Mat 1 [:: [:: 0%R]]); Arr2 (Mat 1 [:: [:: 1%R]] : mat rat)] with
  | Ok _ => RErr TypeError
  | Exn e => RErr (NumpyError e)
  end.
Proof.
exact: (@fit_transform_unknown_kernel rat argsort_by_sort (fun g X _ => crbf_mat X) cinv ceigh
          "poly" 10 1%R (2%:R / 5%:R)%R (Arr2 (Mat 1 [:: [:: 0%R]])) (Arr2 (Mat 1 [:: [:: 1%R]]))
          ltac:(discriminate) ltac:(discriminate)).
Defined.

Close Scope string_scope.
